(** * The Docker image store of the Mesos containerizer

    A shallow embedding of [StoreProcess]
    (src/slave/containerizer/mesos/provisioner/docker/store.cpp): the
    deduplication table of in-flight pulls, the staging-to-store layer
    placement and the assembly of the [ImageInfo] handed to the provisioner.

    The process is a libprocess actor: every member function runs to
    completion on the actor before the next message is taken.  Member
    functions are therefore functions in a state monad over the process
    state, and the continuations that [defer(self(), ...)] queues on the
    actor are the messages of a step function.  The filesystem, the Puller
    and the MetadataManager are collaborators: their calls are recorded in a
    trace, in program order, and their answers come from an environment that
    the theorems quantify over. *)

From stdpp Require Import base gmap sets list strings pretty.
From Stdlib Require Import Ascii.

(** ** Results and futures *)

(** stout's [Try<T>]. *)
Inductive Try (A : Type) : Type :=
| Ok (a : A)
| Error (msg : string).
Arguments Ok {A} a.
Arguments Error {A} msg.

(** libprocess' [Future<T>], as seen by the actor: a value, a failure, the
    future of the promise [id], whose state lives in the process, or the
    future a collaborator returned from the call logged at position [call]
    of the trace. *)
Inductive Future (A : Type) : Type :=
| Ready (a : A)
| Failed (msg : string)
| Pending (id : nat)
| Delegated (call : nat).
Arguments Ready {A} a.
Arguments Failed {A} msg.
Arguments Pending {A} id.
Arguments Delegated {A} call.

(** What a member function hands back: glog's [CHECK] aborts the agent
    instead of returning. *)
Inductive Outcome (A : Type) : Type :=
| Aborted (check : string)
| Returned (a : A).
Arguments Aborted {A} check.
Arguments Returned {A} a.

(** ** Data model *)

Record ImageReference := {
  registry : option string;
  repository : string;
  tag : string
}.

Record Image := { layer_ids : list string }.

(** [mesos::Image], the descriptor handed to [get]: its type, and for a
    Docker image the name and whether the cache may answer. *)
Inductive ImageType := APPC | DOCKER.

Record MesosImage := {
  image_type : ImageType;
  docker_name : string;
  cached : bool
}.

(** The parsed v1 manifest; the store never looks inside. *)
Record ImageManifest := { manifest_json : string }.

Record ImageInfo := {
  layers : list string;
  dockerManifest : ImageManifest
}.

#[global] Instance ImageReference_eq_dec : EqDecision ImageReference.
Proof. solve_decision. Defined.

(** Modelled from the spec: [stringify(reference)], the key of the pulling
    table.  The printer of [spec::ImageReference] is not among the files at
    hand; the spec says that the reference "stringifies back to a canonical
    form used as the deduplication key".  The form taken here is
    registry/repository:tag; the store compares keys and never looks inside
    one, and so do the theorems about the table. *)
Definition stringify (reference : ImageReference) : string :=
  match registry reference with
  | Some r => r +:+ "/" +:+ repository reference +:+ ":" +:+ tag reference
  | None => repository reference +:+ ":" +:+ tag reference
  end.

(** ** Path layout *)

(** Modelled from the spec: [path::join] of stout, which is not among the
    files at hand; the spec writes paths as "staging directory + layer id",
    joined by one separator. *)
Definition path_join (a b : string) : string := a +:+ "/" +:+ b.

(** Modelled from the spec: paths.hpp is not among the files at hand; the
    layout is the one of the spec's section 6, [staging/], and a unique
    name under it made by the mkdtemp template. *)
Definition getStagingDir (storeDir : string) : string :=
  path_join storeDir "staging".

Definition getStagingTempDir (storeDir : string) : string :=
  path_join (getStagingDir storeDir) "XXXXXX".

(** Modelled from the spec: section 6, [layers/<layerId>/]. *)
Definition getImageLayerPath (storeDir layerId : string) : string :=
  path_join (path_join storeDir "layers") layerId.

(** Modelled from the spec: section 6, [layers/<layerId>/rootfs/]. *)
Definition getImageLayerRootfsPath (storeDir layerId : string) : string :=
  path_join (getImageLayerPath storeDir layerId) "rootfs".

(** Modelled from the spec: section 6, [layers/<layerId>/manifest]. *)
Definition getImageLayerManifestPath (storeDir layerId : string) : string :=
  path_join (getImageLayerPath storeDir layerId) "manifest".

(** [under p q]: [q] is [p] or lies below the directory [p]; paths are
    compared as written, without resolving [..] or links. *)
Definition under (p q : string) : bool :=
  String.eqb q p || String.prefix (p +:+ "/") q.

(** ** Events *)

(** Calls that leave the actor, writes to the pulling table and the return
    of [moveLayers] to its chain, in the order the code performs them.
    Filesystem results are the [Try] the call returned ([None]: it
    succeeded). *)
Inductive Event :=
| EvMkdtemp (template : string) (r : Try string)
| EvExists (path : string) (r : bool)
| EvMkdir (path : string) (r : option string)
| EvRename (source target : string) (r : option string)
| EvRmdir (path : string) (r : option string)
| EvRead (path : string) (r : Try string)
| EvPull (promise : nat) (reference : ImageReference) (staging : string)
| EvRegister (name : string) (promise : nat)
| EvErase (name : string)
| EvPut (promise : nat) (reference : ImageReference) (layerIds : list string)
| EvRecover
| EvLookup (reference : ImageReference) (cached : bool)
| EvWarning (msg : string)
| EvMoved (promise : nat) (r : Future (list string)).

#[global] Instance Try_eq_dec {A} `{EqDecision A} : EqDecision (Try A).
Proof. solve_decision. Defined.

#[global] Instance Future_eq_dec {A} `{EqDecision A} : EqDecision (Future A).
Proof. solve_decision. Defined.

#[global] Instance Event_eq_dec : EqDecision Event.
Proof. solve_decision. Defined.

(** ** Process state *)

(** How far the chain built in [_get],
    [pull.then(moveLayers).then(put).onAny(cleanup)], has come. *)
Inductive Stage :=
| AwaitPull
| MoveQueued (layerIds : list string)
| PutQueued (layerIds : list string)
| AwaitPut
| Settled (r : Try Image)
| Cleaned (r : Try Image).

(** A promise of the pulling table with the chain it is associated with
    and what the chain's lambdas captured. *)
Record Chain := {
  c_name : string;
  c_reference : ImageReference;
  c_staging : string;
  c_stage : Stage
}.

Record StoreProcess := {
  pulling : gmap string nat;
  chains : gmap nat Chain;
  next_promise : nat;
  fs : gset string;
  trace : list Event
}.

Definition set_pulling (f : gmap string nat -> gmap string nat)
  (s : StoreProcess) : StoreProcess :=
  {| pulling := f (pulling s); chains := chains s;
     next_promise := next_promise s; fs := fs s; trace := trace s |}.

Definition set_chains (f : gmap nat Chain -> gmap nat Chain)
  (s : StoreProcess) : StoreProcess :=
  {| pulling := pulling s; chains := f (chains s);
     next_promise := next_promise s; fs := fs s; trace := trace s |}.

Definition set_next_promise (n : nat) (s : StoreProcess) : StoreProcess :=
  {| pulling := pulling s; chains := chains s;
     next_promise := n; fs := fs s; trace := trace s |}.

Definition set_fs (f : gset string -> gset string)
  (s : StoreProcess) : StoreProcess :=
  {| pulling := pulling s; chains := chains s;
     next_promise := next_promise s; fs := f (fs s); trace := trace s |}.

Definition log (e : Event) (s : StoreProcess) : StoreProcess :=
  {| pulling := pulling s; chains := chains s;
     next_promise := next_promise s; fs := fs s; trace := trace s ++ [e] |}.

Definition set_stage (st : Stage) (c : Chain) : Chain :=
  {| c_name := c_name c; c_reference := c_reference c;
     c_staging := c_staging c; c_stage := st |}.

(** The freshly constructed process. *)
Definition init (disk : gset string) : StoreProcess :=
  {| pulling := ∅; chains := ∅; next_promise := 0; fs := disk; trace := [] |}.

(** ** Environment *)

(** The flags and the answers of the collaborators.  Each answer may depend
    on everything that happened so far. *)
Record Env := {
  docker_store_dir : string;
  mkdtemp_answer : StoreProcess -> Try string;
  mkdir_error : string -> StoreProcess -> option string;
  rename_error : string -> string -> StoreProcess -> option string;
  rmdir_error : string -> StoreProcess -> option string;
  read_answer : string -> StoreProcess -> Try string;
  parse_answer : string -> Try ImageManifest;
  parse_reference : string -> Try ImageReference
}.

(** ** The state monad of member functions *)

Definition M (A : Type) : Type := StoreProcess -> A * StoreProcess.

Definition ret {A} (a : A) : M A := fun s => (a, s).

Definition bind {A B} (m : M A) (k : A -> M B) : M B :=
  fun s => let (a, s') := m s in k a s'.

Notation "'let*' x := m 'in' k" := (bind m (fun x => k))
  (at level 10, x name, m at level 100, k at level 200).
Notation "m ;;; k" := (bind m (fun _ => k))
  (at level 100, k at level 200, right associativity).

Definition emit (e : Event) : M unit := fun s => (tt, log e s).

(** [foreach (x, xs) acc = body(x, acc)]. *)
Fixpoint foreach {A B} (xs : list A) (body : A -> B -> M B) (acc : B) : M B :=
  match xs with
  | [] => ret acc
  | x :: xs' => let* acc' := body x acc in foreach xs' body acc'
  end.

(** ** stout's [os::] calls *)

Section Process.

Variable env : Env.

(** Modelled from the spec: stout's [os::exists], which is not among the
    files at hand; the disk is the set of the paths that exist. *)
Definition os_exists (path : string) : M bool :=
  fun s => let r := bool_decide (path ∈ fs s) in (r, log (EvExists path r) s).

(** Modelled from the spec: stout's [os::mkdir], "create the final
    directory"; whether it fails is the environment's choice. *)
Definition os_mkdir (path : string) : M (Try unit) :=
  fun s =>
    match mkdir_error env path s with
    | Some e => (Error e, log (EvMkdir path (Some e)) s)
    | None => (Ok tt, log (EvMkdir path None) (set_fs (fun d => {[path]} ∪ d) s))
    end.

(** Where [q], found under [source], lands after [rename(source, target)]. *)
Definition retarget (source target q : string) : string :=
  target +:+ String.substring (String.length source)
                              (String.length q - String.length source) q.

(** The disk after the tree at [source] has moved to [target]. *)
Definition renamed (source target : string) (d : gset string) : gset string :=
  filter (fun q => under source q = false) d
  ∪ set_map (retarget source target) (filter (fun q => under source q = true) d).

(** Modelled from the spec: stout's [os::rename], "rename the staging
    subtree into" the final directory; a failed rename moves nothing. *)
Definition os_rename (source target : string) : M (Try unit) :=
  fun s =>
    match rename_error env source target s with
    | Some e => (Error e, log (EvRename source target (Some e)) s)
    | None => (Ok tt, log (EvRename source target None)
                          (set_fs (renamed source target) s))
    end.

(** The disk after [path] and all below it are gone. *)
Definition removed (path : string) (d : gset string) : gset string :=
  filter (fun q => under path q = false) d.

(** Modelled from the spec: stout's [os::rmdir], the removal of the staging
    directory with what it holds. *)
Definition os_rmdir (path : string) : M (Try unit) :=
  fun s =>
    match rmdir_error env path s with
    | Some e => (Error e, log (EvRmdir path (Some e)) s)
    | None => (Ok tt, log (EvRmdir path None) (set_fs (removed path) s))
    end.

(** mkdtemp(3) replaces the six trailing [X] of the template. *)
Definition mkdtemp_name (template suffix : string) : string :=
  String.substring 0 (String.length template - 6) template +:+ suffix.

(** Modelled from the spec: stout's [os::mkdtemp], "a fresh, uniquely-named
    staging directory under the store's staging root"; the name is the
    environment's choice. *)
Definition os_mkdtemp (template : string) : M (Try string) :=
  fun s =>
    match mkdtemp_answer env s with
    | Error e => (Error e, log (EvMkdtemp template (Error e)) s)
    | Ok suffix =>
        let dir := mkdtemp_name template suffix in
        (Ok dir, log (EvMkdtemp template (Ok dir))
                     (set_fs (fun d => {[dir]} ∪ d) s))
    end.

(** Modelled from the spec: stout's [os::read] of the manifest file. *)
Definition os_read (path : string) : M (Try string) :=
  fun s => let r := read_answer env path s in (r, log (EvRead path r) s).

(** ** Futures *)

(** Modelled from the spec: libprocess' [collect], which is not among the
    files at hand, "the conjunction of all per-layer operations": the list
    of the values, or the first failure. *)
Fixpoint collect {A} (futures : list (Future A)) : Future (list A) :=
  match futures with
  | [] => Ready []
  | Failed e :: _ => Failed e
  | Ready a :: rest =>
      match collect rest with
      | Ready l => Ready (a :: l)
      | Failed e => Failed e
      | Pending i => Pending i
      | Delegated c => Delegated c
      end
  | Pending i :: rest =>
      match collect rest with
      | Failed e => Failed e
      | _ => Pending i
      end
  | Delegated c :: rest =>
      match collect rest with
      | Failed e => Failed e
      | _ => Delegated c
      end
  end.

(** Modelled from the spec: [future.then(f)] of libprocess for a plain
    function [f]; a failure passes through. *)
Definition then_ {A B} (future : Future A) (f : A -> B) : Future B :=
  match future with
  | Ready a => Ready (f a)
  | Failed e => Failed e
  | Pending i => Pending i
  | Delegated c => Delegated c
  end.

(** ** Member functions *)

(** [StoreProcess::recover] *)
Definition recover : M (Future unit) :=
  fun s => (Delegated (length (trace s)), log EvRecover s).

(** [StoreProcess::get], up to the call of the Metadata Index; the two
    continuations chained to that call are messages of the actor. *)
Definition get (image : MesosImage) : M (Future ImageInfo) :=
  match image_type image with
  | APPC => ret (Failed "Docker provisioner store only supports Docker images")
  | DOCKER =>
      match parse_reference env (docker_name image) with
      | Error e =>
          ret (Failed ("Failed to parse docker image '" +:+ docker_name image +:+
                       "': " +:+ e))
      | Ok reference =>
          fun s => (Delegated (length (trace s)),
                    log (EvLookup reference (cached image)) s)
      end
  end.

(** [StoreProcess::moveLayer] *)
Definition moveLayer (staging layerId : string) : M (Future unit) :=
  let source := path_join staging layerId in
  let* present := os_exists source in
  if negb present then ret (Ready tt) else
  let target := getImageLayerPath (docker_store_dir env) layerId in
  let* placed := os_exists target in
  if placed then ret (Ready tt) else
  let* mkdir := os_mkdir target in
  match mkdir with
  | Error e =>
      ret (Failed ("Failed to create directory in store for layer '" +:+
                   layerId +:+ "': " +:+ e))
  | Ok _ =>
      let* rename := os_rename source target in
      match rename with
      | Error e =>
          ret (Failed ("Failed to move layer from '" +:+ source +:+
                       "' to '" +:+ target +:+ "': " +:+ e))
      | Ok _ => ret (Ready tt)
      end
  end.

(** [StoreProcess::moveLayers] *)
Definition moveLayers (staging : string) (layerIds : list string)
  : M (Future (list string)) :=
  let* futures :=
    foreach layerIds
      (fun layerId futures =>
         let* f := moveLayer staging layerId in ret (futures ++ [f])) [] in
  ret (then_ (collect futures) (fun _ => layerIds)).

(** The chain of [_get]:
    [puller->pull(reference, staging).then(moveLayers).then(put).onAny(...)],
    associated with the promise. *)
Definition puller_pull (promise : nat) (name : string)
  (reference : ImageReference) (staging : string) : M unit :=
  fun s =>
    (tt, log (EvPull promise reference staging)
           (set_chains
              <[promise := {| c_name := name; c_reference := reference;
                              c_staging := staging; c_stage := AwaitPull |}]>
              s)).

(** [new Promise<Image>()] *)
Definition new_promise : M nat :=
  fun s => (next_promise s, set_next_promise (S (next_promise s)) s).

(** [StoreProcess::_get].  The match on the table is
    [pulling.contains(name)] with, in its [Some] branch, [pulling[name]]. *)
Definition _get (reference : ImageReference) (image : option Image)
  : M (Future Image) :=
  match image with
  | Some cached => ret (Ready cached)
  | None =>
      let* staging := os_mkdtemp (getStagingTempDir (docker_store_dir env)) in
      match staging with
      | Error e => ret (Failed ("Failed to create a staging directory: " +:+ e))
      | Ok staging =>
          let name := stringify reference in
          fun s =>
            match pulling s !! name with
            | None =>
                (let* promise := new_promise in
                 puller_pull promise name reference staging ;;;
                 (fun s' => (tt, log (EvRegister name promise)
                                   (set_pulling <[name := promise]> s'))) ;;;
                 ret (Pending promise)) s
            | Some promise => (Pending promise, s)
            end
      end
  end.

(** The lambda of [.then] in [_get]: [metadataManager->put]. *)
Definition put_lambda (promise : nat) (reference : ImageReference)
  (layerIds : list string) : M unit :=
  emit (EvPut promise reference layerIds).

(** The lambda of [.onAny] in [_get]. *)
Definition onAny_lambda (name staging : string) : M unit :=
  (fun s => (tt, log (EvErase name) (set_pulling (delete name) s))) ;;;
  let* rmdir := os_rmdir staging in
  match rmdir with
  | Error e => emit (EvWarning ("Failed to remove staging directory: " +:+ e))
  | Ok _ => ret tt
  end.

(** [StoreProcess::__get] *)
Definition __get (image : Image) : M (Outcome (Future ImageInfo)) :=
  if negb (0 <? length (layer_ids image))
  then ret (Aborted "CHECK_LT(0, image.layer_ids_size())") else
  let* layerPaths :=
    foreach (layer_ids image)
      (fun layerId layerPaths =>
         ret (layerPaths ++
              [getImageLayerRootfsPath (docker_store_dir env) layerId])) [] in
  let* manifest :=
    os_read (getImageLayerManifestPath (docker_store_dir env)
               (nth (length (layer_ids image) - 1) (layer_ids image) ""%string)) in
  match manifest with
  | Error e => ret (Returned (Failed ("Failed to read manifest: " +:+ e)))
  | Ok m =>
      match parse_answer env m with
      | Error e =>
          ret (Returned (Failed ("Failed to parse docker v1 manifest: " +:+ e)))
      | Ok v1 =>
          ret (Returned (Ready {| layers := layerPaths; dockerManifest := v1 |}))
      end
  end.

(** ** The actor *)

(** What the promise [promise] has been settled with, if it has. *)
Definition promise_outcome (s : StoreProcess) (promise : nat)
  : option (Try Image) :=
  match chains s !! promise with
  | Some c =>
      match c_stage c with
      | Settled r | Cleaned r => Some r
      | _ => None
      end
  | None => None
  end.

Definition settled (s : StoreProcess) (future : Future Image)
  : option (Try Image) :=
  match future with
  | Ready image => Some (Ok image)
  | Failed e => Some (Error e)
  | Pending promise => promise_outcome s promise
  | Delegated _ => None
  end.

(** The messages the actor takes: calls dispatched to it, continuations
    deferred to it, and the settling of a collaborator's future.
    [LookupSettled] is [metadataManager->get] answering in
    [StoreProcess::get], which runs the deferred [_get]; [Run__get] is the
    deferred [__get] of the same chain, which runs once [future] is ready;
    [Call_get] is the head of [StoreProcess::get], which asks for the lookup.
    [PullSettled] is the Puller answering; [written] is what it has left
    in the staging directory it was given. *)
Inductive Msg :=
| Call_recover
| Call_get (image : MesosImage)
| LookupSettled (reference : ImageReference) (image : option Image)
| Run__get (future : Future Image)
| PullSettled (promise : nat) (written : list string) (r : Try (list string))
| Run_moveLayers (promise : nat)
| Run_put (promise : nat)
| PutSettled (promise : nat) (r : Try Image)
| Run_onAny (promise : nat).

Inductive Reply :=
| NoReply
| RNothing (f : Future unit)
| RImage (f : Future Image)
| RImageInfo (f : Future ImageInfo).

Inductive Step :=
| NotEnabled
| Crash (check : string)
| Next (r : Reply) (s : StoreProcess).

(** The Puller writes below the directory handed to it. *)
Definition puller_wrote (staging : string) (written : list string)
  (s : StoreProcess) : StoreProcess :=
  set_fs (fun d => list_to_set (map (path_join staging) written) ∪ d) s.

Definition advance (promise : nat) (c : Chain) (st : Stage)
  (s : StoreProcess) : Step :=
  Next NoReply (set_chains <[promise := set_stage st c]> s).

(** [.then] on the future of [moveLayers]: its value goes to the next
    continuation, its failure settles the chain. *)
Definition after_moveLayers (f : Future (list string)) : option Stage :=
  match f with
  | Ready layerIds => Some (PutQueued layerIds)
  | Failed e => Some (Settled (Error e))
  | _ => None
  end.

Definition step (m : Msg) (s : StoreProcess) : Step :=
  match m with
  | Call_recover => let (f, s') := recover s in Next (RNothing f) s'
  | Call_get image => let (f, s') := get image s in Next (RImageInfo f) s'
  | LookupSettled reference image =>
      let (f, s') := _get reference image s in Next (RImage f) s'
  | Run__get future =>
      match settled s future with
      | Some (Ok image) =>
          match __get image s with
          | (Aborted check, _) => Crash check
          | (Returned f, s') => Next (RImageInfo f) s'
          end
      | _ => NotEnabled
      end
  | PullSettled promise written r =>
      match chains s !! promise with
      | Some c =>
          let s' := puller_wrote (c_staging c) written s in
          match c_stage c, r with
          | AwaitPull, Ok layerIds => advance promise c (MoveQueued layerIds) s'
          | AwaitPull, Error e => advance promise c (Settled (Error e)) s'
          | _, _ => NotEnabled
          end
      | None => NotEnabled
      end
  | Run_moveLayers promise =>
      match chains s !! promise with
      | Some c =>
          match c_stage c with
          | MoveQueued layerIds =>
              let (f, s') := moveLayers (c_staging c) layerIds s in
              match after_moveLayers f with
              | Some st => advance promise c st (log (EvMoved promise f) s')
              | None => NotEnabled
              end
          | _ => NotEnabled
          end
      | None => NotEnabled
      end
  | Run_put promise =>
      match chains s !! promise with
      | Some c =>
          match c_stage c with
          | PutQueued layerIds =>
              let (_, s') := put_lambda promise (c_reference c) layerIds s in
              advance promise c AwaitPut s'
          | _ => NotEnabled
          end
      | None => NotEnabled
      end
  | PutSettled promise r =>
      match chains s !! promise with
      | Some c =>
          match c_stage c with
          | AwaitPut => advance promise c (Settled r) s
          | _ => NotEnabled
          end
      | None => NotEnabled
      end
  | Run_onAny promise =>
      match chains s !! promise with
      | Some c =>
          match c_stage c with
          | Settled r =>
              let (_, s') := onAny_lambda (c_name c) (c_staging c) s in
              advance promise c (Cleaned r) s'
          | _ => NotEnabled
          end
      | None => NotEnabled
      end
  end.

(** The actor takes one message after the other. *)
Fixpoint run (ms : list Msg) (s : StoreProcess)
  : option (list Reply * StoreProcess) :=
  match ms with
  | [] => Some ([], s)
  | m :: ms' =>
      match step m s with
      | Next r s' =>
          match run ms' s' with
          | Some (rs, s'') => Some (r :: rs, s'')
          | None => None
          end
      | _ => None
      end
  end.

Definition reachable (s : StoreProcess) : Prop :=
  ∃ disk ms rs, run ms (init disk) = Some (rs, s).

End Process.

(** ** Reading the trace *)

Definition is_pull_of (name : string) (e : Event) : bool :=
  match e with
  | EvPull _ reference _ => bool_decide (stringify reference = name)
  | _ => false
  end.

(** How often the Puller was invoked for the key [name]. *)
Definition pulls_of (name : string) (tr : list Event) : nat :=
  length (List.filter (is_pull_of name) tr).

(** [e1] happens before [e2] in [tr]. *)
Definition precedes (e1 e2 : Event) (tr : list Event) : Prop :=
  ∃ i j, i < j ∧ tr !! i = Some e1 ∧ tr !! j = Some e2.

(** The events logged between the states [s] and [s']. *)
Definition since (s s' : StoreProcess) : list Event :=
  drop (length (trace s)) (trace s').

(** The futures handed to the calls of [_get] that found nothing cached for
    the key [name], in the order of the calls. *)
Fixpoint get_replies (name : string) (ms : list Msg) (rs : list Reply)
  : list (Future Image) :=
  match ms, rs with
  | LookupSettled reference None :: ms', RImage f :: rs' =>
      if bool_decide (stringify reference = name)
      then f :: get_replies name ms' rs'
      else get_replies name ms' rs'
  | _ :: ms', _ :: rs' => get_replies name ms' rs'
  | _, _ => []
  end.

(** The failure of a request whose staging directory could not be made. *)
Definition staging_failure (f : Future Image) : Prop :=
  ∃ e, f = Failed ("Failed to create a staging directory: " +:+ e).

(** A chain whose [onAny] callback has not run yet: the pull is in flight,
    or it has settled and its cleanup is still queued. *)
Definition unfinished (c : Chain) : bool :=
  match c_stage c with
  | Cleaned _ => false
  | _ => true
  end.

(** ** A small environment to run the model on *)

Definition busybox : ImageReference :=
  {| registry := None; repository := "library/busybox"; tag := "latest" |}.

(** Every call succeeds; the n-th event picks the staging name. *)
Definition env_ok : Env :=
  {| docker_store_dir := "/store";
     mkdtemp_answer := fun s => Ok ("t" +:+ pretty (length (trace s)));
     mkdir_error := fun _ _ => None;
     rename_error := fun _ _ _ => None;
     rmdir_error := fun _ _ => None;
     read_answer := fun _ _ => Ok "{}";
     parse_answer := fun m => Ok {| manifest_json := m |};
     parse_reference := fun _ => Ok busybox |}.

(** The staging root fills up after the first pull has started. *)
Definition env_full : Env :=
  {| docker_store_dir := "/store";
     mkdtemp_answer := fun s =>
       match trace s with [] => Ok "t0" | _ => Error "No space left on device" end;
     mkdir_error := fun _ _ => None;
     rename_error := fun _ _ _ => None;
     rmdir_error := fun _ _ => None;
     read_answer := fun _ _ => Ok "{}";
     parse_answer := fun m => Ok {| manifest_json := m |};
     parse_reference := fun _ => Ok busybox |}.

Definition busybox_image : Image := {| layer_ids := ["aaa"; "bbb"] |}.

(** The state and the replies after the messages [ms], from an empty disk. *)
Definition state_after (env : Env) (ms : list Msg) : StoreProcess :=
  match run env ms (init ∅) with
  | Some (_, s) => s
  | None => init ∅
  end.

Definition replies_to (env : Env) (ms : list Msg) : list Reply :=
  match run env ms (init ∅) with
  | Some (rs, _) => rs
  | None => []
  end.

(** One pull of two layers, up to the placement of the layers. *)
Definition pull_busybox : list Msg :=
  [LookupSettled busybox None;
   PullSettled 0 ["aaa"; "aaa/rootfs"; "bbb"] (Ok ["aaa"; "bbb"]);
   Run_moveLayers 0].

(** Three requests for one image, the third after the Puller answered. *)
Definition three_requests : list Msg :=
  [LookupSettled busybox None;
   LookupSettled busybox None;
   PullSettled 0 ["aaa"; "aaa/rootfs"; "bbb"] (Ok ["aaa"; "bbb"]);
   LookupSettled busybox None].

(** The descriptor of the requests for busybox. *)
Definition busybox_request : MesosImage :=
  {| image_type := DOCKER; docker_name := "library/busybox:latest";
     cached := false |}.

(** Two requests made one after the other, before anything else happened.
    The lookup of the first comes back, its pull fails and is cleaned up;
    only then does the lookup of the second come back. *)
Definition overlapping_requests : list Msg :=
  [Call_get busybox_request;
   Call_get busybox_request;
   LookupSettled busybox None;
   PullSettled 0 [] (Error "connection reset");
   Run_onAny 0;
   LookupSettled busybox None;
   PullSettled 1 ["aaa"; "aaa/rootfs"; "bbb"] (Ok ["aaa"; "bbb"]);
   Run_moveLayers 1;
   Run_put 1;
   PutSettled 1 (Ok busybox_image)].

(** ** Predicates of the proofs *)

(** A path of the staging root. *)
Definition in_staging (dir p : string) : Prop :=
  ∃ x, p = path_join (getStagingDir dir) x.

(** A path of the layers root. *)
Definition in_layers (dir q : string) : bool :=
  under (path_join dir "layers") q.

(** The [os::] calls of placement and assembly; the recursive removal is
    not among them, only the cleanup makes it. *)
Definition is_os_event (e : Event) : bool :=
  match e with
  | EvMkdtemp _ _ | EvExists _ _ | EvMkdir _ _ | EvRename _ _ _
  | EvRead _ _ => true
  | _ => false
  end.

(** Nothing below the layers root disappears. *)
Definition keeps_layers (dir : string) (d d' : gset string) : Prop :=
  ∀ q, in_layers dir q = true → q ∈ d → q ∈ d'.

(** [os_step dir s s']: from [s] to [s'] only filesystem calls were made;
    the table and the promises are as they were, and the layers are kept. *)
Record os_step (dir : string) (s s' : StoreProcess) : Prop := {
  os_pulling : pulling s' = pulling s;
  os_chains : chains s' = chains s;
  os_next : next_promise s' = next_promise s;
  os_trace : ∃ evs, trace s' = trace s ++ evs
                    ∧ Forall (fun e => is_os_event e = true) evs;
  os_layers : keeps_layers dir (fs s) (fs s')
}.

(** The futures [moveLayers] collects: one per layer, in order. *)
Definition placements (env : Env) (staging : string) (layerIds : list string)
  (s : StoreProcess) : list (Future unit) :=
  fst (foreach layerIds
         (fun layerId futures =>
            let* f := moveLayer env staging layerId in ret (futures ++ [f]))
         [] s).

(** ** The invariant of the pulling table *)

(** The table and the promises agree: every entry names a chain of that key
    whose cleanup has not run, every such chain is the entry of its key,
    promise ids are below the allocator, staging directories come from the
    staging root, and keys are the printed references. *)
Record Inv (dir : string) (s : StoreProcess) : Prop := {
  inv_fresh : ∀ p c, chains s !! p = Some c → p < next_promise s;
  inv_table : ∀ name p, pulling s !! name = Some p →
    ∃ c, chains s !! p = Some c ∧ c_name c = name ∧ unfinished c = true;
  inv_chain : ∀ p c, chains s !! p = Some c → unfinished c = true →
    pulling s !! c_name c = Some p;
  inv_staging : ∀ p c, chains s !! p = Some c → in_staging dir (c_staging c);
  inv_name : ∀ p c, chains s !! p = Some c → c_name c = stringify (c_reference c)
}.

(** ** The steps of the actor, case by case *)

(** [transition env s m r s']: the actor in state [s] takes the message
    [m], answers [r] and is left in [s'].  One rule per path through
    [step]. *)
Inductive transition (env : Env) (s : StoreProcess)
  : Msg → Reply → StoreProcess → Prop :=
| T_recover :
    transition env s Call_recover
      (RNothing (Delegated (length (trace s)))) (log EvRecover s)
| T_get image :
    transition env s (Call_get image)
      (RImageInfo (fst (get env image s))) (snd (get env image s))
| T_cached reference image :
    transition env s (LookupSettled reference (Some image))
      (RImage (Ready image)) s
| T_no_staging reference e :
    mkdtemp_answer env s = Error e →
    transition env s (LookupSettled reference None)
      (RImage (Failed ("Failed to create a staging directory: " +:+ e)))
      (log (EvMkdtemp (getStagingTempDir (docker_store_dir env)) (Error e)) s)
| T_join reference suffix promise :
    mkdtemp_answer env s = Ok suffix →
    pulling s !! stringify reference = Some promise →
    transition env s (LookupSettled reference None) (RImage (Pending promise))
      (log (EvMkdtemp (getStagingTempDir (docker_store_dir env))
              (Ok (path_join (getStagingDir (docker_store_dir env)) suffix)))
         (set_fs (fun d => {[path_join (getStagingDir (docker_store_dir env))
                               suffix]} ∪ d) s))
| T_start reference suffix :
    mkdtemp_answer env s = Ok suffix →
    pulling s !! stringify reference = None →
    transition env s (LookupSettled reference None)
      (RImage (Pending (next_promise s)))
      {| pulling := <[stringify reference := next_promise s]> (pulling s);
         chains := <[next_promise s :=
                       {| c_name := stringify reference; c_reference := reference;
                          c_staging := path_join (getStagingDir (docker_store_dir env))
                                         suffix;
                          c_stage := AwaitPull |}]> (chains s);
         next_promise := S (next_promise s);
         fs := {[path_join (getStagingDir (docker_store_dir env)) suffix]} ∪ fs s;
         trace := trace s ++
           [EvMkdtemp (getStagingTempDir (docker_store_dir env))
              (Ok (path_join (getStagingDir (docker_store_dir env)) suffix));
            EvPull (next_promise s) reference
              (path_join (getStagingDir (docker_store_dir env)) suffix);
            EvRegister (stringify reference) (next_promise s)] |}
| T_assemble future image f s' :
    settled s future = Some (Ok image) →
    __get env image s = (Returned f, s') →
    transition env s (Run__get future) (RImageInfo f) s'
| T_pulled promise c written layerIds :
    chains s !! promise = Some c → c_stage c = AwaitPull →
    transition env s (PullSettled promise written (Ok layerIds)) NoReply
      (set_chains <[promise := set_stage (MoveQueued layerIds) c]>
         (puller_wrote (c_staging c) written s))
| T_pull_failed promise c written e :
    chains s !! promise = Some c → c_stage c = AwaitPull →
    transition env s (PullSettled promise written (Error e)) NoReply
      (set_chains <[promise := set_stage (Settled (Error e)) c]>
         (puller_wrote (c_staging c) written s))
| T_moved promise c layerIds :
    chains s !! promise = Some c → c_stage c = MoveQueued layerIds →
    fst (moveLayers env (c_staging c) layerIds s) = Ready layerIds →
    transition env s (Run_moveLayers promise) NoReply
      (set_chains <[promise := set_stage (PutQueued layerIds) c]>
         (log (EvMoved promise (Ready layerIds))
            (snd (moveLayers env (c_staging c) layerIds s))))
| T_move_failed promise c layerIds e :
    chains s !! promise = Some c → c_stage c = MoveQueued layerIds →
    fst (moveLayers env (c_staging c) layerIds s) = Failed e →
    transition env s (Run_moveLayers promise) NoReply
      (set_chains <[promise := set_stage (Settled (Error e)) c]>
         (log (EvMoved promise (Failed e))
            (snd (moveLayers env (c_staging c) layerIds s))))
| T_put promise c layerIds :
    chains s !! promise = Some c → c_stage c = PutQueued layerIds →
    transition env s (Run_put promise) NoReply
      (set_chains <[promise := set_stage AwaitPut c]>
         (log (EvPut promise (c_reference c) layerIds) s))
| T_put_settled promise c r :
    chains s !! promise = Some c → c_stage c = AwaitPut →
    transition env s (PutSettled promise r) NoReply
      (set_chains <[promise := set_stage (Settled r) c]> s)
| T_cleanup promise c r :
    chains s !! promise = Some c → c_stage c = Settled r →
    transition env s (Run_onAny promise) NoReply
      (set_chains <[promise := set_stage (Cleaned r) c]>
         (snd (onAny_lambda env (c_name c) (c_staging c) s))).

(** ** The invariant of the trace *)

(** The futures with which [moveLayers] returned to the chain of [p]. *)
Definition moved_of (p : nat) (tr : list Event) : list (Future (list string)) :=
  omap (fun e => match e with
                 | EvMoved q f => if decide (q = p) then Some f else None
                 | _ => None
                 end) tr.

(** The layer lists with which the chain of [p] called [put]. *)
Definition puts_of (p : nat) (tr : list Event) : list (list string) :=
  omap (fun e => match e with
                 | EvPut q _ layerIds => if decide (q = p) then Some layerIds else None
                 | _ => None
                 end) tr.

Arguments moved_of : simpl never.
Arguments puts_of : simpl never.

(** What the trace holds of a chain, by its stage. *)
Definition stage_trace (p : nat) (st : Stage) (tr : list Event) : Prop :=
  match st with
  | AwaitPull | MoveQueued _ => moved_of p tr = [] ∧ puts_of p tr = []
  | PutQueued layerIds => moved_of p tr = [Ready layerIds] ∧ puts_of p tr = []
  | AwaitPut => ∃ layerIds, moved_of p tr = [Ready layerIds] ∧ puts_of p tr = [layerIds]
  | Settled _ | Cleaned _ =>
      puts_of p tr = []
      ∨ ∃ layerIds, moved_of p tr = [Ready layerIds] ∧ puts_of p tr = [layerIds]
  end.

(** What the trace must hold in every state the actor reaches. *)
Record TraceInv (dir : string) (s : StoreProcess) : Prop := {
  ti_rmdir : ∀ path r, EvRmdir path r ∈ trace s → in_staging dir path;
  ti_cleaned : ∀ p c r, chains s !! p = Some c → c_stage c = Cleaned r →
    EvErase (c_name c) ∈ trace s ∧ ∃ res, EvRmdir (c_staging c) res ∈ trace s;
  ti_unborn : ∀ p, chains s !! p = None →
    moved_of p (trace s) = [] ∧ puts_of p (trace s) = [];
  ti_stage : ∀ p c, chains s !! p = Some c → stage_trace p (c_stage c) (trace s);
  ti_order : ∀ i p reference layerIds,
    trace s !! i = Some (EvPut p reference layerIds) →
    ∃ j, j < i ∧ trace s !! j = Some (EvMoved p (Ready layerIds))
}.

(** ** Replies to the calls of [_get] *)

(** The future a message hands to a call of [_get] for the key [name]. *)
Definition head_reply (name : string) (m : Msg) (r : Reply) : list (Future Image) :=
  match m, r with
  | LookupSettled reference None, RImage f =>
      if bool_decide (stringify reference = name) then [f] else []
  | _, _ => []
  end.

(** What a call of [_get] that starts no pull answers. *)
Definition call_reply_ok (s : StoreProcess) (m : Msg) (r : Reply) : Prop :=
  match m with
  | LookupSettled reference None =>
      (∃ f, r = RImage f ∧ staging_failure f)
      ∨ (∃ p, pulling s !! stringify reference = Some p ∧ r = RImage (Pending p))
  | _ => True
  end.

(** ** Creation of the store *)

(** [Store::create(const Flags&, const Owned<Puller>&)]: the store
    directory, the staging root, then the MetadataManager, whose [create]
    answers [metadataManager].  On success the process is spawned on the
    state reached. *)
Definition Store_create_with_puller (env : Env) (metadataManager : Try unit)
  : M (Try unit) :=
  let* mkdir := os_mkdir env (docker_store_dir env) in
  match mkdir with
  | Error e => ret (Error ("Failed to create Docker store directory: " +:+ e))
  | Ok _ =>
      let* mkdir := os_mkdir env (getStagingDir (docker_store_dir env)) in
      match mkdir with
      | Error e =>
          ret (Error ("Failed to create Docker store staging directory: " +:+ e))
      | Ok _ =>
          match metadataManager with
          | Error e => ret (Error e)
          | Ok _ => ret (Ok tt)
          end
      end
  end.

(** [Store::create(const Flags&)]: the URI fetcher and the Puller, whose
    [create] answer [fetcher] and [puller], then the store itself. *)
Definition Store_create (env : Env) (fetcher puller metadataManager : Try unit)
  : M (Try unit) :=
  match fetcher with
  | Error e => ret (Error ("Failed to create the URI fetcher: " +:+ e))
  | Ok _ =>
      match puller with
      | Error e => ret (Error ("Failed to create Docker puller: " +:+ e))
      | Ok _ =>
          let* store := Store_create_with_puller env metadataManager in
          match store with
          | Error e => ret (Error ("Failed to create Docker store: " +:+ e))
          | Ok _ => ret (Ok tt)
          end
      end
  end.

(** Every rename fails; all else as in [env_ok]. *)
Definition env_busy : Env :=
  {| docker_store_dir := "/store";
     mkdtemp_answer := fun s => Ok ("t" +:+ pretty (length (trace s)));
     mkdir_error := fun _ _ => None;
     rename_error := fun _ _ _ => Some "Device or resource busy";
     rmdir_error := fun _ _ => None;
     read_answer := fun _ _ => Ok "{}";
     parse_answer := fun m => Ok {| manifest_json := m |};
     parse_reference := fun _ => Ok busybox |}.

(** The loop of [moveLayers] taken layer by layer: the futures of the
    moves in the order of the list, and the state after the last. *)
Fixpoint place_each (env : Env) (staging : string) (layerIds : list string)
  (s : StoreProcess) : list (Future unit) * StoreProcess :=
  match layerIds with
  | [] => ([], s)
  | l :: rest =>
      let (f, s1) := moveLayer env staging l s in
      let (futures, s2) := place_each env staging rest s1 in
      (f :: futures, s2)
  end.

(** [moveLayer] has nothing to do for the layer: it is not staged, or its
    store directory exists. *)
Definition needs_no_move (env : Env) (staging layerId : string)
  (d : gset string) : Prop :=
  path_join staging layerId ∉ d
  ∨ getImageLayerPath (docker_store_dir env) layerId ∈ d.

(** ** Image names of the first provisioner *)

(** src/slave/containerizer/provisioners/docker.hpp.  The store does not
    include this header; its names are kept apart from the store's. *)
Module provisioners.

(** [struct ImageName]. *)
Record ImageName := {
  repo : string;
  tag : string;
  registry : option string
}.

(** [operator<<(std::ostream&, const ImageName&)], as the string it writes
    to the stream. *)
Definition print (image : ImageName) : string :=
  match registry image with
  | Some r => r +:+ "/" +:+ repo image +:+ ":" +:+ tag image
  | None => repo image +:+ ":" +:+ tag image
  end.

End provisioners.

(** The string has a colon. *)
Fixpoint has_colon (s : string) : bool :=
  match s with
  | EmptyString => false
  | String c s' => Ascii.eqb c ":" || has_colon s'
  end.

(** ** Tactics *)

(** An event is not in a list written out. *)
Ltac not_in_list H :=
  repeat (apply elem_of_cons in H as [H|H]; [discriminate |]);
  now apply not_elem_of_nil in H.

(** Decide a closed proposition by running its decision procedure. *)
Ltac decide_by_compute :=
  cbv zeta;
  match goal with
  | |- ?P => apply (@bool_decide_unpack P _); vm_compute; exact I
  end.

(** ** Strings and paths *)

Lemma append_cons (x : ascii) (a b : string) :
  String x a +:+ b = String x (a +:+ b).
Proof. reflexivity. Qed.

Lemma append_empty (b : string) : "" +:+ b = b.
Proof. reflexivity. Qed.

Lemma append_assoc (a b c : string) : (a +:+ b) +:+ c = a +:+ b +:+ c.
Proof.
  induction a as [|x a IH]; [reflexivity |].
  now rewrite !append_cons, IH.
Qed.

Lemma append_cancel (a b c : string) : a +:+ b = a +:+ c → b = c.
Proof.
  induction a as [|x a IH]; intros H; [exact H |].
  rewrite !append_cons in H. injection H. exact IH.
Qed.

Lemma prefix_split (p q : string) :
  String.prefix p q = true → ∃ r, q = p +:+ r.
Proof.
  revert q. induction p as [|x p IH]; intros q H.
  - exists q. reflexivity.
  - destruct q as [|y q]; simpl in H; [discriminate |].
    destruct (Ascii.ascii_dec x y) as [->|]; [| discriminate].
    destruct (IH q H) as [r ->]. exists r. reflexivity.
Qed.

Lemma prefix_append (p r : string) : String.prefix p (p +:+ r) = true.
Proof.
  induction p as [|x p IH]; [now destruct r |].
  rewrite append_cons. simpl.
  destruct (Ascii.ascii_dec x x); [exact IH | congruence].
Qed.

Lemma under_split (p q : string) : under p q = true → ∃ r, q = p +:+ r.
Proof.
  unfold under. intros H. apply orb_true_iff in H as [H|H].
  - apply String.eqb_eq in H as ->. exists ""%string.
    clear. induction p as [|x p IH]; [reflexivity |].
    now rewrite append_cons, <- IH.
  - apply prefix_split in H as [r ->]. exists ("/" +:+ r).
    now rewrite append_assoc.
Qed.

Lemma substring_append (a b : string) :
  String.substring 0 (String.length a) (a +:+ b) = a.
Proof.
  induction a as [|x a IH].
  - now destruct b.
  - rewrite append_cons. simpl. now rewrite IH.
Qed.

Lemma length_append (a b : string) :
  String.length (a +:+ b) = String.length a + String.length b.
Proof.
  induction a as [|x a IH]; [reflexivity |].
  rewrite append_cons. simpl. now rewrite IH.
Qed.

(** mkdtemp on the staging template yields a directory of the staging root. *)
Lemma mkdtemp_name_staging (dir suffix : string) :
  mkdtemp_name (getStagingTempDir dir) suffix
  = path_join (getStagingDir dir) suffix.
Proof.
  unfold mkdtemp_name, getStagingTempDir, path_join.
  rewrite <- (append_assoc _ "/" "XXXXXX"), length_append. simpl String.length.
  replace (_ + 6 - 6) with (String.length (getStagingDir dir +:+ "/")) by lia.
  rewrite substring_append. apply append_assoc.
Qed.

Lemma in_staging_join dir p x : in_staging dir p → in_staging dir (path_join p x).
Proof.
  intros [y ->]. exists (y +:+ "/" +:+ x). unfold path_join.
  now rewrite !append_assoc.
Qed.

Lemma staging_layers_apart dir p q :
  in_staging dir p → in_layers dir q = true → under p q = false.
Proof.
  intros [x ->] Hq. destruct (under _ q) eqn:Hp; [exfalso | reflexivity].
  apply under_split in Hp as [r1 E1]. apply under_split in Hq as [r2 E2].
  rewrite E1 in E2. unfold getStagingDir, path_join in E2.
  rewrite !append_assoc in E2. apply append_cancel in E2. discriminate E2.
Qed.

Lemma layer_path_in_layers dir layerId :
  in_layers dir (getImageLayerPath dir layerId) = true.
Proof.
  unfold in_layers, getImageLayerPath, under. apply orb_true_iff. right.
  unfold path_join at 2. rewrite <- append_assoc.
  apply prefix_append.
Qed.

(** ** What the [os::] calls do to the process *)

Lemma os_step_refl dir s : os_step dir s s.
Proof.
  split; try reflexivity.
  - exists []. split; [now rewrite app_nil_r | constructor].
  - intros q _ H. exact H.
Qed.

Lemma os_step_trans dir s1 s2 s3 :
  os_step dir s1 s2 → os_step dir s2 s3 → os_step dir s1 s3.
Proof.
  intros [P1 C1 N1 (e1 & T1 & F1) L1] [P2 C2 N2 (e2 & T2 & F2) L2].
  split; try congruence.
  - exists (e1 ++ e2). split.
    + now rewrite T2, T1, app_assoc.
    + now apply Forall_app.
  - intros q Hq H. apply L2, L1; assumption.
Qed.

Lemma os_step_log dir e s : is_os_event e = true → os_step dir s (log e s).
Proof.
  intros He. split; try reflexivity.
  - exists [e]. split; [reflexivity | now constructor].
  - intros q _ H. exact H.
Qed.

Lemma removed_keeps dir p d :
  in_staging dir p → keeps_layers dir d (removed p d).
Proof.
  intros Hp q Hq H. unfold removed. apply elem_of_filter. split; [| exact H].
  eapply staging_layers_apart; eassumption.
Qed.

Lemma renamed_keeps dir p target d :
  in_staging dir p → keeps_layers dir d (renamed p target d).
Proof.
  intros Hp q Hq H. unfold renamed. apply elem_of_union. left.
  apply elem_of_filter. split; [| exact H].
  eapply staging_layers_apart; eassumption.
Qed.

Section OsCalls.

Variable env : Env.
Let dir := docker_store_dir env.

Lemma os_exists_step path s : os_step dir s (snd (os_exists path s)).
Proof. now apply os_step_log. Qed.

Lemma os_read_step path s : os_step dir s (snd (os_read env path s)).
Proof. now apply os_step_log. Qed.

Lemma os_mkdir_step path s : os_step dir s (snd (os_mkdir env path s)).
Proof.
  unfold os_mkdir. destruct (mkdir_error env path s); simpl.
  - now apply os_step_log.
  - split; try reflexivity.
    + eexists [_]. split; [reflexivity | now constructor].
    + intros q _ H. simpl. set_solver.
Qed.

Lemma os_mkdtemp_step template s :
  os_step dir s (snd (os_mkdtemp env template s)).
Proof.
  unfold os_mkdtemp. destruct (mkdtemp_answer env s); simpl.
  - split; try reflexivity.
    + eexists [_]. split; [reflexivity | now constructor].
    + intros q _ H. simpl. set_solver.
  - now apply os_step_log.
Qed.

Lemma os_rename_step source target s :
  in_staging dir source → os_step dir s (snd (os_rename env source target s)).
Proof.
  intros Hs. unfold os_rename. destruct (rename_error env source target s); simpl.
  - now apply os_step_log.
  - split; try reflexivity.
    + eexists [_]. split; [reflexivity | now constructor].
    + simpl. now apply renamed_keeps.
Qed.

Lemma bind_snd {A B} (m : M A) (k : A → M B) s :
  snd ((let* x := m in k x) s) = snd (k (fst (m s)) (snd (m s))).
Proof. unfold bind. now destruct (m s). Qed.

Lemma bind_fst {A B} (m : M A) (k : A → M B) s :
  fst ((let* x := m in k x) s) = fst (k (fst (m s)) (snd (m s))).
Proof. unfold bind. now destruct (m s). Qed.

Lemma moveLayer_step staging layerId s :
  in_staging dir staging →
  os_step dir s (snd (moveLayer env staging layerId s)).
Proof.
  intros Hs. unfold moveLayer. rewrite bind_snd.
  eapply os_step_trans; [apply os_exists_step |].
  destruct (fst (os_exists _ s)); cbn [negb]; [| apply os_step_refl].
  rewrite bind_snd. eapply os_step_trans; [apply os_exists_step |].
  destruct (fst (os_exists (getImageLayerPath _ _) _)); [apply os_step_refl |].
  rewrite bind_snd. eapply os_step_trans; [apply os_mkdir_step |].
  destruct (fst (os_mkdir env _ _)); [| apply os_step_refl].
  rewrite bind_snd. eapply os_step_trans.
  { apply os_rename_step. apply in_staging_join, Hs. }
  destruct (fst (os_rename env _ _ _)); apply os_step_refl.
Qed.

Lemma foreach_moveLayer_step staging layerIds futures s :
  in_staging dir staging →
  os_step dir s
    (snd (foreach layerIds
            (fun layerId futures =>
               let* f := moveLayer env staging layerId in ret (futures ++ [f]))
            futures s)).
Proof.
  intros Hs. revert futures s.
  induction layerIds as [|l ls IH]; intros futures s; simpl.
  - apply os_step_refl.
  - rewrite bind_snd. eapply os_step_trans; [| apply IH].
    rewrite bind_snd. simpl. now apply moveLayer_step.
Qed.

Lemma moveLayers_step staging layerIds s :
  in_staging dir staging →
  os_step dir s (snd (moveLayers env staging layerIds s)).
Proof.
  intros Hs. unfold moveLayers. rewrite bind_snd. simpl.
  now apply foreach_moveLayer_step.
Qed.

End OsCalls.

(** ** Assembly: [__get] *)

Lemma foreach_push_back {A B} (f : A → B) (xs : list A) (acc : list B) s :
  foreach xs (fun x acc => ret (acc ++ [f x])) acc s = (acc ++ map f xs, s).
Proof.
  revert acc. induction xs as [|x xs IH]; intros acc; simpl.
  - now rewrite app_nil_r.
  - unfold bind at 1. simpl. rewrite IH. now rewrite <- app_assoc.
Qed.

Lemma nth_pred_length {A} (l : list A) (d : A) :
  nth (length l - 1) l d = List.last l d.
Proof.
  induction l as [|x l IH]; [reflexivity |].
  destruct l as [|y l]; [reflexivity |].
  simpl length in *. replace (S (S (length l)) - 1) with (S (length l)) by lia.
  replace (S (length l) - 1) with (length l) in IH by lia.
  simpl nth. simpl nth in IH. exact IH.
Qed.

(** C2, as the code has it.  An [Image] without layers does not make
    [__get] return an error: the [CHECK_LT] at its head aborts the process,
    so the caller gets neither an error nor an [ImageInfo], and the actor
    taking the deferred [__get] crashes. *)
Theorem C2_empty_image_aborts (env : Env) (image : Image) (s : StoreProcess) :
  layer_ids image = [] →
  __get env image s = (Aborted "CHECK_LT(0, image.layer_ids_size())", s)
  ∧ (∀ f s', __get env image s ≠ (Returned f, s'))
  ∧ step env (Run__get (Ready image)) s
    = Crash "CHECK_LT(0, image.layer_ids_size())".
Proof.
  intros H.
  assert (E : __get env image s
              = (Aborted "CHECK_LT(0, image.layer_ids_size())", s)).
  { unfold __get. rewrite H. reflexivity. }
  split; [exact E |]. split.
  - intros f s'. rewrite E. discriminate.
  - simpl. now rewrite E.
Qed.

Lemma C2_empty_image_aborts_witness :
  __get env_ok {| layer_ids := [] |} (init ∅)
  = (Aborted "CHECK_LT(0, image.layer_ids_size())", init ∅).
Proof.
  exact (proj1 (C2_empty_image_aborts env_ok {| layer_ids := [] |} (init ∅)
                  eq_refl)).
Defined.

(** C2, as the spec has it, fails: on the image without layers [__get]
    returns no error to the caller. *)
Lemma C2_no_error_returned :
  ¬ ∃ e s', __get env_ok {| layer_ids := [] |} (init ∅)
            = (Returned (Failed e), s').
Proof. intros (e & s' & H). vm_compute in H. discriminate H. Qed.

(** C8: on an image with layers, [__get] answers with the rootfs path of
    every layer in the order of [layer_ids], reads the manifest at the
    manifest path of the last layer and nowhere else, and turns a failed
    read or a failed parse into a failure that names the step. *)
Theorem C8_assembly (env : Env) (image : Image) (s : StoreProcess) :
  layer_ids image ≠ [] →
  let dir := docker_store_dir env in
  let path := getImageLayerManifestPath dir (List.last (layer_ids image) "") in
  __get env image s =
  (Returned
     match read_answer env path s with
     | Error e => Failed ("Failed to read manifest: " +:+ e)
     | Ok m =>
         match parse_answer env m with
         | Error e => Failed ("Failed to parse docker v1 manifest: " +:+ e)
         | Ok v1 =>
             Ready {| layers := map (getImageLayerRootfsPath dir) (layer_ids image);
                      dockerManifest := v1 |}
         end
     end,
   log (EvRead path (read_answer env path s)) s).
Proof.
  intros H dir path. unfold __get.
  assert (E : (0 <? length (layer_ids image)) = true).
  { destruct (layer_ids image); [congruence | reflexivity]. }
  rewrite E. cbn [negb]. unfold bind at 1.
  rewrite foreach_push_back. cbn [app]. rewrite nth_pred_length.
  unfold bind, os_read. fold dir. fold path.
  destruct (read_answer env path s) as [m|e]; [| reflexivity].
  now destruct (parse_answer env m).
Qed.

Lemma C8_assembly_witness :
  __get env_ok {| layer_ids := ["aaa"; "bbb"] |} (init ∅) =
  (Returned (Ready {| layers := ["/store/layers/aaa/rootfs";
                                 "/store/layers/bbb/rootfs"];
                      dockerManifest := {| manifest_json := "{}" |} |}),
   log (EvRead "/store/layers/bbb/manifest" (Ok "{}")) (init ∅)).
Proof.
  exact (C8_assembly env_ok {| layer_ids := ["aaa"; "bbb"] |} (init ∅)
           ltac:(discriminate)).
Defined.

(** ** The cache hit and recovery *)

(** C7: with a cached image from the Metadata Index, [_get] hands the image
    back as it is and leaves the process as it was: no staging directory is
    made, the Puller is not invoked, nothing is logged; the deferred [__get]
    of the request can run at once, on that image. *)
Theorem C7_cache_hit (env : Env) (reference : ImageReference) (image : Image)
  (s : StoreProcess) :
  _get env reference (Some image) s = (Ready image, s)
  ∧ step env (LookupSettled reference (Some image)) s
    = Next (RImage (Ready image)) s
  ∧ step env (Run__get (Ready image)) s
    = match __get env image s with
      | (Aborted check, _) => Crash check
      | (Returned f, s') => Next (RImageInfo f) s'
      end.
Proof. repeat split. Qed.

(** C9: [recover] hands the call to the Metadata Index and nothing else:
    the pulling table, the promises and the filesystem are as before, and
    the one event logged is the collaborator's call, whose future is the
    result. *)
Theorem C9_recover_delegates (s : StoreProcess) :
  recover s = (Delegated (length (trace s)), log EvRecover s)
  ∧ pulling (snd (recover s)) = pulling s
  ∧ chains (snd (recover s)) = chains s
  ∧ fs (snd (recover s)) = fs s
  ∧ trace (snd (recover s)) = trace s ++ [EvRecover]
  ∧ ∀ env, step env Call_recover s
           = Next (RNothing (Delegated (length (trace s)))) (log EvRecover s).
Proof. repeat split. Qed.

(** ** Placement of one layer: [moveLayer] *)

Lemma retarget_root (source target : string) : retarget source target source = target.
Proof.
  unfold retarget. rewrite Nat.sub_diag.
  assert (E : ∀ n a, String.substring n 0 a = ""%string).
  { intros n. induction n as [|n IH]; intros [|x a]; simpl; auto. }
  rewrite E. clear. induction target as [|x t IH]; [reflexivity |].
  now rewrite append_cons, IH.
Qed.

Lemma under_refl (p : string) : under p p = true.
Proof. unfold under. now rewrite String.eqb_refl. Qed.

Lemma renamed_target (source target : string) (d : gset string) :
  source ∈ d → target ∈ renamed source target d.
Proof.
  intros H. unfold renamed. apply elem_of_union. right.
  apply elem_of_map. exists source. split; [now rewrite retarget_root |].
  apply elem_of_filter. split; [apply under_refl | exact H].
Qed.

Lemma moveLayer_unfold (env : Env) (staging layerId : string) (s : StoreProcess) :
  let source := path_join staging layerId in
  let target := getImageLayerPath (docker_store_dir env) layerId in
  moveLayer env staging layerId s =
  if bool_decide (source ∈ fs s) then
    let s0 := log (EvExists source true) s in
    if bool_decide (target ∈ fs s) then (Ready tt, log (EvExists target true) s0)
    else
      let s1 := log (EvExists target false) s0 in
      match mkdir_error env target s1 with
      | Some e =>
          (Failed ("Failed to create directory in store for layer '" +:+
                   layerId +:+ "': " +:+ e),
           log (EvMkdir target (Some e)) s1)
      | None =>
          let s2 := log (EvMkdir target None)
                        (set_fs (fun d => {[target]} ∪ d) s1) in
          match rename_error env source target s2 with
          | Some e =>
              (Failed ("Failed to move layer from '" +:+ source +:+
                       "' to '" +:+ target +:+ "': " +:+ e),
               log (EvRename source target (Some e)) s2)
          | None =>
              (Ready tt,
               log (EvRename source target None)
                   (set_fs (renamed source target) s2))
          end
      end
  else (Ready tt, log (EvExists source false) s).
Proof.
  intros source target. unfold moveLayer, bind, os_exists. fold source target.
  destruct (bool_decide (source ∈ fs s)); cbn [negb]; [| reflexivity].
  cbn [fs log].
  destruct (bool_decide (target ∈ fs s)); [reflexivity |].
  unfold os_mkdir.
  destruct (mkdir_error env target _); [reflexivity |].
  unfold os_rename.
  destruct (rename_error env source target _); reflexivity.
Qed.

(** C4: [moveLayer] on the staged path [source] and the store path
    [target] of a layer.  Without [source] it succeeds after the one
    existence test; with [source] and with [target] it succeeds after the
    two tests; in both cases the filesystem is untouched.  Otherwise it
    makes [target] and then renames [source] onto it: a failed mkdir fails
    the layer before any rename, a failed rename fails the layer, and after
    both the staged tree sits at [target]. *)
Theorem C4_moveLayer (env : Env) (staging layerId : string) (s : StoreProcess) :
  let source := path_join staging layerId in
  let target := getImageLayerPath (docker_store_dir env) layerId in
  let r := moveLayer env staging layerId s in
  (source ∉ fs s →
     fst r = Ready tt ∧ fs (snd r) = fs s
     ∧ trace (snd r) = trace s ++ [EvExists source false])
  ∧ (source ∈ fs s → target ∈ fs s →
     fst r = Ready tt ∧ fs (snd r) = fs s
     ∧ trace (snd r) = trace s ++ [EvExists source true; EvExists target true])
  ∧ (source ∈ fs s → target ∉ fs s →
     let s1 := log (EvExists target false) (log (EvExists source true) s) in
     match mkdir_error env target s1 with
     | Some e =>
         fst r = Failed ("Failed to create directory in store for layer '" +:+
                         layerId +:+ "': " +:+ e)
         ∧ fs (snd r) = fs s
         ∧ trace (snd r) = trace s ++ [EvExists source true; EvExists target false;
                                       EvMkdir target (Some e)]
     | None =>
         let s2 := log (EvMkdir target None)
                       (set_fs (fun d => {[target]} ∪ d) s1) in
         match rename_error env source target s2 with
         | Some e =>
             fst r = Failed ("Failed to move layer from '" +:+ source +:+
                             "' to '" +:+ target +:+ "': " +:+ e)
             ∧ fs (snd r) = {[target]} ∪ fs s
             ∧ trace (snd r) = trace s ++ [EvExists source true; EvExists target false;
                                           EvMkdir target None;
                                           EvRename source target (Some e)]
         | None =>
             fst r = Ready tt
             ∧ fs (snd r) = renamed source target ({[target]} ∪ fs s)
             ∧ target ∈ fs (snd r)
             ∧ trace (snd r) = trace s ++ [EvExists source true; EvExists target false;
                                           EvMkdir target None;
                                           EvRename source target None]
         end
     end).
Proof.
  intros source target r.
  pose proof (moveLayer_unfold env staging layerId s) as E.
  cbv zeta in E. fold source target r in E.
  split; [| split].
  - intros H. rewrite bool_decide_eq_false_2 in E by exact H.
    rewrite E. repeat split.
  - intros H H'. rewrite (bool_decide_eq_true_2 _ H) in E.
    rewrite (bool_decide_eq_true_2 _ H') in E.
    rewrite E. cbn. repeat split. now rewrite <- app_assoc.
  - intros H H' s1. rewrite (bool_decide_eq_true_2 _ H) in E.
    rewrite (bool_decide_eq_false_2 _ H') in E. fold s1 in E.
    destruct (mkdir_error env target s1) as [e|].
    + rewrite E. cbn. repeat split. now rewrite <- !app_assoc.
    + intros s2. fold s2 in E.
      destruct (rename_error env source target s2) as [e|]; rewrite E; cbn.
      * repeat split. now rewrite <- !app_assoc.
      * repeat split.
        -- apply renamed_target. set_solver.
        -- now rewrite <- !app_assoc.
Qed.

Lemma C4_moveLayer_witness :
  fst (moveLayer env_ok "/store/staging/t0" "aaa"
         (init {["/store/staging/t0/aaa"; "/store/staging/t0/aaa/rootfs"]}))
  = Ready tt
  ∧ fst (moveLayer env_ok "/store/staging/t0" "aaa" (init ∅)) = Ready tt
  ∧ fst (moveLayer env_ok "/store/staging/t0" "aaa"
           (init {["/store/staging/t0/aaa"; "/store/layers/aaa"]})) = Ready tt.
Proof.
  split; [| split].
  - refine (proj1 (proj2 (proj2 (C4_moveLayer env_ok "/store/staging/t0" "aaa"
        (init {["/store/staging/t0/aaa"; "/store/staging/t0/aaa/rootfs"]})))
        _ _)).
    + decide_by_compute.
    + decide_by_compute.
  - apply (proj1 (C4_moveLayer env_ok "/store/staging/t0" "aaa" (init ∅))).
    decide_by_compute.
  - apply (proj1 (proj2 (C4_moveLayer env_ok "/store/staging/t0" "aaa"
        (init {["/store/staging/t0/aaa"; "/store/layers/aaa"]})))).
    + decide_by_compute.
    + decide_by_compute.
Defined.

(** ** [_get] and its callbacks, unfolded *)

Lemma _get_unfold (env : Env) (reference : ImageReference) (s : StoreProcess) :
  let dir := docker_store_dir env in
  let name := stringify reference in
  _get env reference None s =
  match mkdtemp_answer env s with
  | Error e =>
      (Failed ("Failed to create a staging directory: " +:+ e),
       log (EvMkdtemp (getStagingTempDir dir) (Error e)) s)
  | Ok suffix =>
      let staging := path_join (getStagingDir dir) suffix in
      match pulling s !! name with
      | Some promise =>
          (Pending promise,
           log (EvMkdtemp (getStagingTempDir dir) (Ok staging))
               (set_fs (fun d => {[staging]} ∪ d) s))
      | None =>
          let promise := next_promise s in
          (Pending promise,
           {| pulling := <[name := promise]> (pulling s);
              chains := <[promise := {| c_name := name; c_reference := reference;
                                        c_staging := staging;
                                        c_stage := AwaitPull |}]> (chains s);
              next_promise := S promise;
              fs := {[staging]} ∪ fs s;
              trace := trace s ++ [EvMkdtemp (getStagingTempDir dir) (Ok staging);
                                   EvPull promise reference staging;
                                   EvRegister name promise] |})
      end
  end.
Proof.
  intros dir name. unfold _get, bind, os_mkdtemp. fold dir name.
  destruct (mkdtemp_answer env s) as [suffix|e]; [| reflexivity].
  rewrite mkdtemp_name_staging. cbn [pulling log set_fs].
  destruct (pulling s !! name); [reflexivity |].
  unfold new_promise, puller_pull, ret, log, set_chains, set_pulling,
    set_next_promise; cbn.
  now rewrite <- !app_assoc.
Qed.

Lemma onAny_lambda_unfold (env : Env) (name staging : string) (s : StoreProcess) :
  let s1 := log (EvErase name) (set_pulling (delete name) s) in
  onAny_lambda env name staging s =
  match rmdir_error env staging s1 with
  | Some e =>
      (tt, log (EvWarning ("Failed to remove staging directory: " +:+ e))
             (log (EvRmdir staging (Some e)) s1))
  | None => (tt, log (EvRmdir staging None) (set_fs (removed staging) s1))
  end.
Proof.
  intros s1. unfold onAny_lambda, bind, os_rmdir. fold s1.
  now destruct (rmdir_error env staging s1).
Qed.

Lemma __get_step (env : Env) (image : Image) (s : StoreProcess) :
  os_step (docker_store_dir env) s (snd (__get env image s)).
Proof.
  unfold __get. destruct (negb _); [apply os_step_refl |].
  unfold bind at 1. rewrite foreach_push_back. rewrite bind_snd.
  eapply os_step_trans; [apply os_read_step |].
  destruct (fst (os_read env _ s)); [| apply os_step_refl].
  destruct (parse_answer env _); apply os_step_refl.
Qed.

(** [moveLayers] answers at once: with its argument, or with a failure. *)
Lemma collect_settled {A} (futures : list (Future A)) :
  Forall (fun f => match f with Ready _ | Failed _ => True | _ => False end)
    futures →
  (∃ l, collect futures = Ready l ∧ Forall (fun f => ∃ a, f = Ready a) futures)
  ∨ (∃ e, collect futures = Failed e ∧ Exists (fun f => ∃ e', f = Failed e') futures).
Proof.
  induction 1 as [|f fs Hf _ IH]; [left; exists []; split; [reflexivity | constructor] |].
  destruct f as [a|e| |]; try contradiction.
  - destruct IH as [(l & El & Hl)|(e & Ee & He)].
    + left. exists (a :: l). simpl. rewrite El. split; [reflexivity |].
      constructor; eauto.
    + right. exists e. simpl. rewrite Ee. split; [reflexivity |].
      now apply Exists_cons_tl.
  - right. eexists. split; [reflexivity |]. apply Exists_cons_hd. eauto.
Qed.

Lemma moveLayer_settled env staging layerId s :
  match fst (moveLayer env staging layerId s) with
  | Ready _ | Failed _ => True
  | _ => False
  end.
Proof.
  rewrite moveLayer_unfold. cbv zeta.
  repeat match goal with
         | |- context [if ?b then _ else _] => destruct b
         | |- context [match ?o with Some _ => _ | None => _ end] => destruct o
         end; exact I.
Qed.

Lemma foreach_moveLayer_settled env staging layerIds futures s :
  Forall (fun f : Future unit =>
            match f with Ready _ | Failed _ => True | _ => False end) futures →
  Forall (fun f : Future unit =>
            match f with Ready _ | Failed _ => True | _ => False end)
    (fst (foreach layerIds
            (fun layerId futures =>
               let* f := moveLayer env staging layerId in ret (futures ++ [f]))
            futures s)).
Proof.
  revert futures s. induction layerIds as [|l ls IH]; intros futures s H; simpl.
  - exact H.
  - rewrite bind_fst. apply IH. rewrite bind_fst. simpl.
    apply Forall_app. split; [exact H |]. constructor; [| constructor].
    apply moveLayer_settled.
Qed.

Lemma moveLayers_result env staging layerIds s :
  fst (moveLayers env staging layerIds s)
  = then_ (collect (placements env staging layerIds s)) (fun _ => layerIds)
  ∧ ((fst (moveLayers env staging layerIds s) = Ready layerIds
      ∧ Forall (fun f => ∃ a, f = Ready a) (placements env staging layerIds s))
     ∨ (∃ e, fst (moveLayers env staging layerIds s) = Failed e
             ∧ Exists (fun f => ∃ e', f = Failed e')
                 (placements env staging layerIds s))).
Proof.
  assert (E : fst (moveLayers env staging layerIds s)
              = then_ (collect (placements env staging layerIds s))
                  (fun _ => layerIds)).
  { unfold moveLayers, placements. now rewrite bind_fst. }
  split; [exact E |]. rewrite E.
  destruct (collect_settled (placements env staging layerIds s))
    as [(l & El & Hl)|(e & Ee & He)].
  - apply foreach_moveLayer_settled. constructor.
  - left. rewrite El. split; [reflexivity | exact Hl].
  - right. exists e. rewrite Ee. split; [reflexivity | exact He].
Qed.

(** ** The table invariant holds *)

Lemma Inv_init dir disk : Inv dir (init disk).
Proof. split; simpl; intros *; rewrite lookup_empty; discriminate. Qed.

Lemma Inv_same dir s s' :
  pulling s' = pulling s → chains s' = chains s →
  next_promise s' = next_promise s → Inv dir s → Inv dir s'.
Proof.
  intros P C N [I1 I2 I3 I4 I5].
  split; rewrite ?P, ?C, ?N; assumption.
Qed.

Lemma Inv_os_step dir s s' : os_step dir s s' → Inv dir s → Inv dir s'.
Proof. intros [P C N _ _]. now apply Inv_same. Qed.

(** A chain moves on to a stage before its cleanup. *)
Lemma Inv_advance dir s p c st :
  Inv dir s → chains s !! p = Some c →
  unfinished c = true → unfinished (set_stage st c) = true →
  Inv dir (set_chains <[p := set_stage st c]> s).
Proof.
  intros [I1 I2 I3 I4 I5] Hc Hu Hu'. split; simpl.
  - intros q d. rewrite lookup_insert. case_decide; [subst | ]; eauto.
  - intros name q Hq. destruct (I2 _ _ Hq) as (d & Hd & Hn & Hud).
    rewrite lookup_insert. case_decide; [subst | eauto].
    replace d with c in * by congruence. eauto.
  - intros q d. rewrite lookup_insert. case_decide; [subst | eauto].
    intros [= <-] _. simpl. eauto.
  - intros q d. rewrite lookup_insert. case_decide; [subst | eauto].
    intros [= <-]. simpl. eauto.
  - intros q d. rewrite lookup_insert. case_decide; [subst | eauto].
    intros [= <-]. simpl. eauto.
Qed.

(** [_get] starts a pull under a key that is not in the table. *)
Lemma Inv_start dir s reference suffix :
  Inv dir s → pulling s !! stringify reference = None →
  Inv dir
    {| pulling := <[stringify reference := next_promise s]> (pulling s);
       chains := <[next_promise s :=
                     {| c_name := stringify reference; c_reference := reference;
                        c_staging := path_join (getStagingDir dir) suffix;
                        c_stage := AwaitPull |}]> (chains s);
       next_promise := S (next_promise s);
       fs := {[path_join (getStagingDir dir) suffix]} ∪ fs s;
       trace := trace s ++ [EvMkdtemp (getStagingTempDir dir)
                              (Ok (path_join (getStagingDir dir) suffix));
                            EvPull (next_promise s) reference
                              (path_join (getStagingDir dir) suffix);
                            EvRegister (stringify reference) (next_promise s)] |}.
Proof.
  intros [I1 I2 I3 I4 I5] Hn. split; simpl.
  - intros q d. rewrite lookup_insert. case_decide; [subst; lia |].
    intros Hd. apply I1 in Hd. lia.
  - intros name q. rewrite lookup_insert. case_decide.
    + intros [= <-]. rewrite lookup_insert_eq. subst. eauto.
    + intros Hq. destruct (I2 _ _ Hq) as (d & Hd & Hnm & Hud).
      rewrite lookup_insert_ne; [eauto |]. apply I1 in Hd. lia.
  - intros q d. rewrite lookup_insert. case_decide.
    + intros [= <-] _. simpl. subst. apply lookup_insert_eq.
    + intros Hd Hu. pose proof (I3 _ _ Hd Hu) as Hq.
      rewrite lookup_insert_ne; [exact Hq | congruence].
  - intros q d. rewrite lookup_insert. case_decide; [| eauto].
    intros [= <-]. simpl. eexists. reflexivity.
  - intros q d. rewrite lookup_insert. case_decide; [| eauto].
    intros [= <-]. reflexivity.
Qed.

(** The cleanup of a settled chain erases its key and retires the chain. *)
Lemma Inv_cleanup dir s s1 p c r :
  Inv dir s → chains s !! p = Some c → c_stage c = Settled r →
  pulling s1 = delete (c_name c) (pulling s) → chains s1 = chains s →
  next_promise s1 = next_promise s →
  Inv dir (set_chains <[p := set_stage (Cleaned r) c]> s1).
Proof.
  intros [I1 I2 I3 I4 I5] Hc Hst P C N.
  assert (Hp : pulling s !! c_name c = Some p).
  { apply I3; [exact Hc |]. unfold unfinished. now rewrite Hst. }
  split; simpl; rewrite ?P, ?C, ?N.
  - intros q d. rewrite lookup_insert. case_decide; [subst | ]; eauto.
  - intros name q. rewrite lookup_delete. case_decide; [discriminate |].
    intros Hq. destruct (I2 _ _ Hq) as (d & Hd & Hn & Hud).
    rewrite lookup_insert_ne; [eauto |]. intros ->.
    replace d with c in * by congruence. congruence.
  - intros q d. rewrite lookup_insert. case_decide.
    + intros [= <-]. discriminate.
    + intros Hd Hu. pose proof (I3 _ _ Hd Hu) as Hq.
      rewrite lookup_delete_ne; [exact Hq |]. intros E. rewrite E in Hp. congruence.
  - intros q d. rewrite lookup_insert. case_decide; [subst | eauto].
    intros [= <-]. simpl. eauto.
  - intros q d. rewrite lookup_insert. case_decide; [subst | eauto].
    intros [= <-]. simpl. eauto.
Qed.

(** ** [step] and [transition] agree *)

Lemma get_effect env image s :
  snd (get env image s) = s
  ∨ ∃ reference, snd (get env image s) = log (EvLookup reference (cached image)) s.
Proof.
  unfold get. destruct (image_type image); [now left |].
  destruct (parse_reference env _); [right; eauto | now left].
Qed.

Lemma step_transition env m s r s' :
  step env m s = Next r s' → transition env s m r s'.
Proof.
  destruct m as [|image|reference [image|]|future|p written [ls|e]|p|p|p r'|p];
    unfold step.
  - simpl. intros [= <- <-]. constructor.
  - destruct (get env image s) as [f s1] eqn:E. intros [= <- <-].
    pose proof (T_get env s image) as T. now rewrite E in T.
  - simpl. intros [= <- <-]. constructor.
  - rewrite _get_unfold. cbv zeta.
    destruct (mkdtemp_answer env s) as [suffix|e] eqn:E1.
    + destruct (pulling s !! stringify reference) as [q|] eqn:E2;
        intros [= <- <-]; econstructor; eassumption.
    + intros [= <- <-]. now constructor.
  - destruct (settled s future) as [[image|]|] eqn:E1; try discriminate.
    destruct (__get env image s) as [[chk|f] s1] eqn:E2; [discriminate |].
    intros [= <- <-]. econstructor; eassumption.
  - destruct (chains s !! p) as [c|] eqn:E1; [| discriminate].
    destruct (c_stage c) eqn:E2; try discriminate.
    intros [= <- <-]. now constructor.
  - destruct (chains s !! p) as [c|] eqn:E1; [| discriminate].
    destruct (c_stage c) eqn:E2; try discriminate.
    intros [= <- <-]. now constructor.
  - destruct (chains s !! p) as [c|] eqn:E1; [| discriminate].
    destruct (c_stage c) eqn:E2; try discriminate.
    destruct (moveLayers env (c_staging c) layerIds s) as [f s1] eqn:E3.
    pose proof (moveLayers_result env (c_staging c) layerIds s) as [_ Hr].
    rewrite E3 in Hr. simpl fst in Hr.
    replace s1 with (snd (moveLayers env (c_staging c) layerIds s))
      by now rewrite E3.
    destruct Hr as [[-> _]|(e & -> & _)]; simpl; intros [= <- <-].
    + apply T_moved; [assumption | assumption | now rewrite E3].
    + eapply T_move_failed; [eassumption | eassumption | now rewrite E3].
  - destruct (chains s !! p) as [c|] eqn:E1; [| discriminate].
    destruct (c_stage c) eqn:E2; try discriminate.
    intros [= <- <-]. now constructor.
  - destruct (chains s !! p) as [c|] eqn:E1; [| discriminate].
    destruct (c_stage c) eqn:E2; try discriminate.
    intros [= <- <-]. now constructor.
  - destruct (chains s !! p) as [c|] eqn:E1; [| discriminate].
    destruct (c_stage c) eqn:E2; try discriminate.
    destruct (onAny_lambda env (c_name c) (c_staging c) s) as [u s1] eqn:E3.
    intros [= <- <-].
    replace s1 with (snd (onAny_lambda env (c_name c) (c_staging c) s))
      by now rewrite E3.
    now constructor.
Qed.

Lemma transition_step env m s r s' :
  transition env s m r s' → step env m s = Next r s'.
Proof.
  destruct 1; unfold step;
    repeat match goal with
           | H : chains _ !! _ = Some _ |- _ => rewrite H; clear H
           | H : c_stage _ = _ |- _ => rewrite H; clear H
           end;
    try reflexivity.
  - now destruct (get env image s).
  - rewrite _get_unfold. cbv zeta. now rewrite H.
  - rewrite _get_unfold. cbv zeta. now rewrite H, H0.
  - rewrite _get_unfold. cbv zeta. now rewrite H, H0.
  - now rewrite H, H0.
  - destruct (moveLayers env (c_staging c) layerIds s) as [f s1].
    simpl in *. now subst f.
  - destruct (moveLayers env (c_staging c) layerIds s) as [f s1].
    simpl in *. now subst f.
  - now destruct (onAny_lambda env (c_name c) (c_staging c) s).
Qed.

Lemma onAny_lambda_effect env name staging s :
  let s' := snd (onAny_lambda env name staging s) in
  pulling s' = delete name (pulling s)
  ∧ chains s' = chains s
  ∧ next_promise s' = next_promise s
  ∧ (fs s' = fs s ∨ fs s' = removed staging (fs s))
  ∧ ∃ r, trace s' = trace s ++ EvErase name :: EvRmdir staging r ::
                      match r with
                      | Some e => [EvWarning ("Failed to remove staging directory: "
                                              +:+ e)]
                      | None => []
                      end.
Proof.
  rewrite onAny_lambda_unfold. cbv zeta.
  destruct (rmdir_error env staging _) as [e|]; cbn.
  - repeat split; auto. exists (Some e). now rewrite <- !app_assoc.
  - repeat split; auto. exists None. now rewrite <- !app_assoc.
Qed.

Section Invariant.

Variable env : Env.
Let dir := docker_store_dir env.

Lemma unfinished_stage c st :
  c_stage c = st → (∀ r, st ≠ Cleaned r) → unfinished c = true.
Proof.
  intros E H. unfold unfinished. rewrite E.
  destruct st; try reflexivity. now elim (H r).
Qed.

Lemma transition_Inv s m r s' : Inv dir s → transition env s m r s' → Inv dir s'.
Proof.
  intros HI T. destruct T.
  - now apply (Inv_same dir s).
  - destruct (get_effect env image s) as [->|[x ->]];
      [exact HI | now apply (Inv_same dir s)].
  - exact HI.
  - now apply (Inv_same dir s).
  - now apply (Inv_same dir s).
  - now apply Inv_start.
  - pose proof (__get_step env image s) as Hs. rewrite H0 in Hs.
    eapply Inv_os_step; eassumption.
  - apply Inv_advance; auto.
    + now apply (Inv_same dir s).
    + eapply unfinished_stage; [eassumption | discriminate].
  - apply Inv_advance; auto.
    + now apply (Inv_same dir s).
    + eapply unfinished_stage; [eassumption | discriminate].
  - pose proof (moveLayers_step env (c_staging c) layerIds s
                  (inv_staging _ _ HI _ _ H)) as Hs.
    apply Inv_advance; auto.
    + eapply Inv_same; [| | | eapply Inv_os_step; eassumption]; reflexivity.
    + simpl. now rewrite (os_chains _ _ _ Hs).
    + eapply unfinished_stage; [eassumption | discriminate].
  - pose proof (moveLayers_step env (c_staging c) layerIds s
                  (inv_staging _ _ HI _ _ H)) as Hs.
    apply Inv_advance; auto.
    + eapply Inv_same; [| | | eapply Inv_os_step; eassumption]; reflexivity.
    + simpl. now rewrite (os_chains _ _ _ Hs).
    + eapply unfinished_stage; [eassumption | discriminate].
  - apply Inv_advance; auto.
    + now apply (Inv_same dir s).
    + eapply unfinished_stage; [eassumption | discriminate].
  - apply Inv_advance; auto. eapply unfinished_stage; [eassumption | discriminate].
  - destruct (onAny_lambda_effect env (c_name c) (c_staging c) s)
      as (P & C & N & _).
    eapply Inv_cleanup; eassumption.
Qed.

Lemma run_cons m ms s rs s' :
  run env (m :: ms) s = Some (rs, s') →
  ∃ r s1 rs', rs = r :: rs' ∧ transition env s m r s1
              ∧ run env ms s1 = Some (rs', s').
Proof.
  simpl. destruct (step env m s) as [| |r s1] eqn:E; try discriminate.
  destruct (run env ms s1) as [[rs' s2]|] eqn:E'; [| discriminate].
  intros [= <- <-]. exists r, s1, rs'. auto using step_transition.
Qed.

Lemma run_app ms1 ms2 s rs1 s1 rs2 s2 :
  run env ms1 s = Some (rs1, s1) → run env ms2 s1 = Some (rs2, s2) →
  run env (ms1 ++ ms2) s = Some (rs1 ++ rs2, s2).
Proof.
  revert s rs1. induction ms1 as [|m ms1 IH]; intros s rs1 H1 H2.
  - simpl in H1. injection H1 as <- <-. exact H2.
  - apply run_cons in H1 as (r & s' & rs' & -> & T & H1).
    simpl. rewrite (transition_step _ _ _ _ _ T).
    now rewrite (IH _ _ H1 H2).
Qed.

Lemma run_Inv ms s rs s' : Inv dir s → run env ms s = Some (rs, s') → Inv dir s'.
Proof.
  revert s rs. induction ms as [|m ms IH]; intros s rs HI H.
  - simpl in H. now injection H as <- <-.
  - apply run_cons in H as (r & s1 & rs' & -> & T & H).
    eapply IH; [| eassumption]. eapply transition_Inv; eassumption.
Qed.

Lemma reachable_Inv s : reachable env s → Inv dir s.
Proof. intros (disk & ms & rs & H). eapply run_Inv; [apply Inv_init | exact H]. Qed.

Lemma reachable_run ms s rs s' :
  reachable env s → run env ms s = Some (rs, s') → reachable env s'.
Proof.
  intros (disk & ms0 & rs0 & H0) H. exists disk, (ms0 ++ ms), (rs0 ++ rs).
  eapply run_app; eassumption.
Qed.

(** Every step keeps what lies below the layers root. *)
Lemma transition_layers s m r s' :
  Inv dir s → transition env s m r s' → keeps_layers dir (fs s) (fs s').
Proof.
  intros HI T.
  destruct T; simpl;
    try (intros q _ Hq; exact Hq);
    try (intros q _ Hq; apply elem_of_union; now right).
  - destruct (get_effect env image s) as [->|[x ->]]; intros q _ Hq; exact Hq.
  - pose proof (__get_step env image s) as Hs. rewrite H0 in Hs. apply Hs.
  - apply (moveLayers_step env (c_staging c) layerIds s
             (inv_staging _ _ HI _ _ H)).
  - apply (moveLayers_step env (c_staging c) layerIds s
             (inv_staging _ _ HI _ _ H)).
  - destruct (onAny_lambda_effect env (c_name c) (c_staging c) s)
      as (_ & _ & _ & [->| ->] & _).
    + intros q _ Hq; exact Hq.
    + apply removed_keeps, (inv_staging _ _ HI _ _ H).
Qed.

Lemma run_layers ms s rs s' :
  Inv dir s → run env ms s = Some (rs, s') → keeps_layers dir (fs s) (fs s').
Proof.
  revert s rs. induction ms as [|m ms IH]; intros s rs HI H.
  - simpl in H. injection H as <- <-. intros q _ Hq; exact Hq.
  - apply run_cons in H as (r & s1 & rs' & -> & T & H).
    intros q Hl Hq.
    apply (IH s1 rs'); [eapply transition_Inv; eassumption | exact H | exact Hl |].
    eapply transition_layers; eassumption.
Qed.

(** The trace only grows. *)
Lemma transition_trace s m r s' :
  Inv dir s → transition env s m r s' → ∃ evs, trace s' = trace s ++ evs.
Proof.
  intros HI T.
  destruct T; simpl;
    try (eexists; reflexivity);
    try (exists []; symmetry; apply app_nil_r).
  - destruct (get_effect env image s) as [->|[x ->]];
      [exists []; symmetry; apply app_nil_r | eexists; reflexivity].
  - pose proof (__get_step env image s) as Hs. rewrite H0 in Hs. simpl in Hs.
    destruct (os_trace _ _ _ Hs) as (evs & -> & _). eauto.
  - destruct (os_trace _ _ _ (moveLayers_step env (c_staging c) layerIds s
                                (inv_staging _ _ HI _ _ H))) as (evs & -> & _).
    rewrite <- app_assoc. eauto.
  - destruct (os_trace _ _ _ (moveLayers_step env (c_staging c) layerIds s
                                (inv_staging _ _ HI _ _ H))) as (evs & -> & _).
    rewrite <- app_assoc. eauto.
  - destruct (onAny_lambda_effect env (c_name c) (c_staging c) s)
      as (_ & _ & _ & _ & x & ->). eauto.
Qed.

Lemma run_trace ms s rs s' :
  Inv dir s → run env ms s = Some (rs, s') → ∃ evs, trace s' = trace s ++ evs.
Proof.
  revert s rs. induction ms as [|m ms IH]; intros s rs HI H.
  - simpl in H. injection H as <- <-. exists []. now rewrite app_nil_r.
  - apply run_cons in H as (r & s1 & rs' & -> & T & H).
    destruct (transition_trace _ _ _ _ HI T) as (e1 & E1).
    destruct (IH s1 rs' (transition_Inv _ _ _ _ HI T) H) as (e2 & E2).
    exists (e1 ++ e2). now rewrite E2, E1, app_assoc.
Qed.

End Invariant.

(** ** The trace invariant holds *)

Lemma moved_of_app p tr evs : moved_of p (tr ++ evs) = moved_of p tr ++ moved_of p evs.
Proof. apply omap_app. Qed.

Lemma puts_of_app p tr evs : puts_of p (tr ++ evs) = puts_of p tr ++ puts_of p evs.
Proof. apply omap_app. Qed.

Lemma os_events_silent p evs :
  Forall (fun e => is_os_event e = true) evs →
  moved_of p evs = [] ∧ puts_of p evs = []
  ∧ (∀ path r, EvRmdir path r ∉ evs)
  ∧ (∀ q reference layerIds, EvPut q reference layerIds ∉ evs).
Proof.
  induction 1 as [|e evs He _ (IH1 & IH2 & IH3 & IH4)].
  - repeat split; intros *; apply not_elem_of_nil.
  - destruct e; try discriminate; repeat split; auto;
      intros *; rewrite not_elem_of_cons; split; auto; discriminate.
Qed.

Lemma moved_of_elem p f tr : f ∈ moved_of p tr ↔ EvMoved p f ∈ tr.
Proof.
  unfold moved_of. rewrite list_elem_of_omap. split.
  - intros (e & He & E). destruct e; try discriminate.
    case_decide; [| discriminate]. now simplify_eq.
  - intros H. eexists. split; [exact H |]. simpl.
    case_decide; [reflexivity | congruence].
Qed.

Lemma puts_of_elem p layerIds tr :
  layerIds ∈ puts_of p tr ↔ ∃ reference, EvPut p reference layerIds ∈ tr.
Proof.
  unfold puts_of. rewrite list_elem_of_omap. split.
  - intros (e & He & E). destruct e; try discriminate.
    case_decide; [| discriminate]. simplify_eq. eauto.
  - intros (reference & H). eexists. split; [exact H |]. simpl.
    case_decide; [reflexivity | congruence].
Qed.

Lemma TraceInv_init dir disk : TraceInv dir (init disk).
Proof.
  split; simpl.
  - intros * H. now apply not_elem_of_nil in H.
  - intros *. rewrite lookup_empty. discriminate.
  - auto.
  - intros *. rewrite lookup_empty. discriminate.
  - intros *. discriminate.
Qed.

Lemma stage_trace_ext p st tr evs :
  moved_of p evs = [] → puts_of p evs = [] →
  stage_trace p st tr → stage_trace p st (tr ++ evs).
Proof.
  intros M P. unfold stage_trace.
  now rewrite moved_of_app, puts_of_app, M, P, !app_nil_r.
Qed.

Lemma order_ext (tr evs : list Event) :
  (∀ i p reference layerIds,
     tr !! i = Some (EvPut p reference layerIds) →
     ∃ j, j < i ∧ tr !! j = Some (EvMoved p (Ready layerIds))) →
  (∀ p reference layerIds,
     EvPut p reference layerIds ∈ evs → EvMoved p (Ready layerIds) ∈ tr) →
  ∀ i p reference layerIds,
    (tr ++ evs) !! i = Some (EvPut p reference layerIds) →
    ∃ j, j < i ∧ (tr ++ evs) !! j = Some (EvMoved p (Ready layerIds)).
Proof.
  intros Hold Hnew i p reference layerIds H.
  apply lookup_app_Some in H as [H|[Hi H]].
  - destruct (Hold _ _ _ _ H) as (j & Hj & E). exists j. split; [exact Hj |].
    now apply lookup_app_l_Some.
  - assert (Hin : EvPut p reference layerIds ∈ evs).
    { apply list_elem_of_lookup. eauto. }
    apply Hnew, list_elem_of_lookup in Hin as (j & E).
    exists j. split; [| now apply lookup_app_l_Some].
    apply lookup_lt_Some in E. lia.
Qed.

(** Events that tell nothing about any chain. *)
Lemma TraceInv_silent dir s s' evs :
  TraceInv dir s →
  trace s' = trace s ++ evs → chains s' = chains s →
  next_promise s' = next_promise s →
  (∀ q, moved_of q evs = [] ∧ puts_of q evs = []) →
  (∀ path r, EvRmdir path r ∉ evs) →
  TraceInv dir s'.
Proof.
  intros [R C U S O] T Ch N Hq Hr. split; rewrite ?T, ?Ch, ?N.
  - intros path r [H|H]%elem_of_app; [eauto | now apply Hr in H].
  - intros p c r Hc Hst. destruct (C _ _ _ Hc Hst) as (H1 & res & H2).
    split; [| exists res]; apply elem_of_app; now left.
  - intros p Hp. destruct (U p Hp) as [U1 U2], (Hq p) as [M P].
    now rewrite moved_of_app, puts_of_app, U1, U2, M, P.
  - intros p c Hc. destruct (Hq p). apply stage_trace_ext; auto.
  - apply order_ext; [exact O |]. intros p reference layerIds H.
    assert (Hin : layerIds ∈ puts_of p evs) by (apply puts_of_elem; eauto).
    destruct (Hq p) as [_ P]. rewrite P in Hin. now apply not_elem_of_nil in Hin.
Qed.

(** The chain of [p] moves to the stage [st] while [evs] is logged. *)
Lemma TraceInv_chain dir s s' p c st evs :
  TraceInv dir s →
  trace s' = trace s ++ evs →
  chains s' = <[p := set_stage st c]> (chains s) →
  next_promise s' = next_promise s →
  chains s !! p = Some c →
  (∀ q, q ≠ p → moved_of q evs = [] ∧ puts_of q evs = []) →
  (∀ path r, EvRmdir path r ∈ evs → in_staging dir path) →
  stage_trace p st (trace s ++ evs) →
  (∀ r, st = Cleaned r →
        EvErase (c_name c) ∈ evs ∧ ∃ res, EvRmdir (c_staging c) res ∈ evs) →
  (∀ layerIds, layerIds ∈ puts_of p evs → EvMoved p (Ready layerIds) ∈ trace s) →
  TraceInv dir s'.
Proof.
  intros [R C U S O] T Ch N Hc Hq Hr Hst Hcl Hput.
  split; rewrite ?T, ?Ch, ?N.
  - intros path r [H|H]%elem_of_app; eauto.
  - intros q d r. rewrite lookup_insert. case_decide.
    + subst q. intros [= <-] E. simpl in E. destruct (Hcl _ E) as (H1 & res & H2).
      simpl. split; [| exists res]; apply elem_of_app; now right.
    + intros Hd E. destruct (C _ _ _ Hd E) as (H1 & res & H2).
      split; [| exists res]; apply elem_of_app; now left.
  - intros q. rewrite lookup_insert. case_decide; [discriminate |].
    intros Hn. destruct (U q Hn) as [U1 U2], (Hq q) as [M P]; [congruence |].
    now rewrite moved_of_app, puts_of_app, U1, U2, M, P.
  - intros q d. rewrite lookup_insert. case_decide.
    + subst q. intros [= <-]. exact Hst.
    + intros Hd. destruct (Hq q) as [M P]; [congruence |].
      apply stage_trace_ext; auto.
  - apply order_ext; [exact O |]. intros q reference layerIds H.
    destruct (decide (q = p)) as [->|Hne].
    + apply Hput, puts_of_elem. eauto.
    + destruct (Hq q Hne) as [_ P].
      assert (Hin : layerIds ∈ puts_of q evs) by (apply puts_of_elem; eauto).
      rewrite P in Hin. now apply not_elem_of_nil in Hin.
Qed.

Lemma moved_of_moved p q f :
  moved_of q [EvMoved p f] = (if decide (p = q) then [f] else [])
  ∧ puts_of q [EvMoved p f] = [].
Proof. unfold moved_of. simpl. now case_decide. Qed.

Lemma puts_of_put p q reference layerIds :
  puts_of q [EvPut p reference layerIds] = (if decide (p = q) then [layerIds] else [])
  ∧ moved_of q [EvPut p reference layerIds] = [].
Proof. unfold puts_of. simpl. now case_decide. Qed.

Lemma TraceInv_start dir s reference staging :
  TraceInv dir s → chains s !! next_promise s = None →
  TraceInv dir
    {| pulling := <[stringify reference := next_promise s]> (pulling s);
       chains := <[next_promise s :=
                     {| c_name := stringify reference; c_reference := reference;
                        c_staging := staging; c_stage := AwaitPull |}]> (chains s);
       next_promise := S (next_promise s);
       fs := {[staging]} ∪ fs s;
       trace := trace s ++ [EvMkdtemp (getStagingTempDir dir) (Ok staging);
                            EvPull (next_promise s) reference staging;
                            EvRegister (stringify reference) (next_promise s)] |}.
Proof.
  intros [R C U S O] Hnew. split; simpl.
  - intros path r [H|H]%elem_of_app; [eauto |].
    repeat (apply elem_of_cons in H as [H|H]; [discriminate |]).
    now apply not_elem_of_nil in H.
  - intros q d r. rewrite lookup_insert. case_decide.
    + intros [= <-]. discriminate.
    + intros Hd E. destruct (C _ _ _ Hd E) as (H1 & res & H2).
      split; [| exists res]; apply elem_of_app; now left.
  - intros q. rewrite lookup_insert. case_decide; [discriminate |].
    intros Hq. destruct (U q Hq) as [U1 U2].
    now rewrite moved_of_app, puts_of_app, U1, U2.
  - intros q d. rewrite lookup_insert. case_decide.
    + subst q. intros [= <-]. simpl. destruct (U _ Hnew) as [U1 U2].
      now rewrite moved_of_app, puts_of_app, U1, U2.
    + intros Hd. now apply stage_trace_ext; auto.
  - apply order_ext; [exact O |]. intros q r l H.
    repeat (apply elem_of_cons in H as [H|H]; [discriminate |]).
    now apply not_elem_of_nil in H.
Qed.

Section TraceInvariant.

Variable env : Env.
Let dir := docker_store_dir env.

Lemma transition_TraceInv s m r s' :
  Inv dir s → TraceInv dir s → transition env s m r s' → TraceInv dir s'.
Proof.
  intros HI HT T. destruct T.
  - apply (TraceInv_silent dir s _ [EvRecover]);
      [exact HT | reflexivity | reflexivity | reflexivity | now intros q |].
    intros path r Hn. not_in_list Hn.
  - destruct (get_effect env image s) as [->|[x ->]]; [exact HT |].
    eapply (TraceInv_silent dir s _ [_]);
      [exact HT | reflexivity | reflexivity | reflexivity | now intros q |].
    intros path r Hn. not_in_list Hn.
  - apply (TraceInv_silent dir s _ []);
      [exact HT | symmetry; apply app_nil_r | reflexivity | reflexivity
      | now intros q |].
    intros path r Hn. not_in_list Hn.
  - eapply (TraceInv_silent dir s _ [_]);
      [exact HT | reflexivity | reflexivity | reflexivity | now intros q |].
    intros path r Hn. not_in_list Hn.
  - eapply (TraceInv_silent dir s _ [_]);
      [exact HT | reflexivity | reflexivity | reflexivity | now intros q |].
    intros path r Hn. not_in_list Hn.
  - apply TraceInv_start; [exact HT |].
    destruct (chains s !! next_promise s) eqn:E; [| reflexivity].
    apply (inv_fresh _ _ HI) in E. lia.
  - pose proof (__get_step env image s) as Hs. rewrite H0 in Hs. simpl in Hs.
    destruct Hs as [_ Ch N (evs & Tr & Hev) _].
    apply (TraceInv_silent dir s _ evs); auto.
    + intros q. now destruct (os_events_silent q evs Hev) as (? & ? & _).
    + now destruct (os_events_silent 0 evs Hev) as (_ & _ & ? & _).
  - apply (TraceInv_chain dir s _ promise c (MoveQueued layerIds) []); auto.
    + symmetry. apply app_nil_r.
    + intros path r Hn. now apply not_elem_of_nil in Hn.
    + rewrite app_nil_r. pose proof (ti_stage _ _ HT _ _ H) as Hst.
      now rewrite H0 in Hst.
    + discriminate.
    + intros l Hn. now apply not_elem_of_nil in Hn.
  - apply (TraceInv_chain dir s _ promise c (Settled (Error e)) []); auto.
    + symmetry. apply app_nil_r.
    + intros path r Hn. now apply not_elem_of_nil in Hn.
    + rewrite app_nil_r. pose proof (ti_stage _ _ HT _ _ H) as Hst.
      rewrite H0 in Hst. left. apply Hst.
    + discriminate.
    + intros l Hn. now apply not_elem_of_nil in Hn.
  - destruct (moveLayers_step env (c_staging c) layerIds s
                (inv_staging _ _ HI _ _ H)) as [_ Ch N (evs & Tr & Hev) _].
    pose proof (ti_stage _ _ HT _ _ H) as Hst. rewrite H0 in Hst.
    destruct Hst as [M P].
    apply (TraceInv_chain dir s _ promise c (PutQueued layerIds)
             (evs ++ [EvMoved promise (Ready layerIds)])); simpl; auto.
    + now rewrite Tr, app_assoc.
    + now rewrite Ch.
    + intros q Hq. destruct (os_events_silent q evs Hev) as (M' & P' & _).
      rewrite moved_of_app, puts_of_app, M', P'.
      destruct (moved_of_moved promise q (Ready layerIds)) as [-> ->].
      case_decide; [congruence | auto].
    + intros path r [Hn|Hn]%elem_of_app.
      * destruct (os_events_silent 0 evs Hev) as (_ & _ & Hr & _). now apply Hr in Hn.
      * apply list_elem_of_singleton in Hn. discriminate.
    + destruct (os_events_silent promise evs Hev) as (M' & P' & _).
      rewrite !moved_of_app, !puts_of_app, M, P, M', P'.
      destruct (moved_of_moved promise promise (Ready layerIds)) as [-> ->].
      case_decide; [auto | congruence].
    + discriminate.
    + intros l. destruct (os_events_silent promise evs Hev) as (M' & P' & _).
      rewrite puts_of_app, P'.
      destruct (moved_of_moved promise promise (Ready layerIds)) as [_ ->].
      intros Hn. now apply not_elem_of_nil in Hn.
  - destruct (moveLayers_step env (c_staging c) layerIds s
                (inv_staging _ _ HI _ _ H)) as [_ Ch N (evs & Tr & Hev) _].
    pose proof (ti_stage _ _ HT _ _ H) as Hst. rewrite H0 in Hst.
    destruct Hst as [M P].
    apply (TraceInv_chain dir s _ promise c (Settled (Error e))
             (evs ++ [EvMoved promise (Failed e)])); simpl; auto.
    + now rewrite Tr, app_assoc.
    + now rewrite Ch.
    + intros q Hq. destruct (os_events_silent q evs Hev) as (M' & P' & _).
      rewrite moved_of_app, puts_of_app, M', P'.
      destruct (moved_of_moved promise q (Failed e)) as [-> ->].
      case_decide; [congruence | auto].
    + intros path r [Hn|Hn]%elem_of_app.
      * destruct (os_events_silent 0 evs Hev) as (_ & _ & Hr & _). now apply Hr in Hn.
      * apply list_elem_of_singleton in Hn. discriminate.
    + destruct (os_events_silent promise evs Hev) as (M' & P' & _).
      left. rewrite !puts_of_app, P, P'.
      now destruct (moved_of_moved promise promise (Failed e)) as [_ ->].
    + discriminate.
    + intros l. destruct (os_events_silent promise evs Hev) as (M' & P' & _).
      rewrite puts_of_app, P'.
      destruct (moved_of_moved promise promise (Failed e)) as [_ ->].
      intros Hn. now apply not_elem_of_nil in Hn.
  - pose proof (ti_stage _ _ HT _ _ H) as Hst. rewrite H0 in Hst.
    destruct Hst as [M P].
    apply (TraceInv_chain dir s _ promise c AwaitPut
             [EvPut promise (c_reference c) layerIds]); simpl; auto.
    + intros q Hq.
      destruct (puts_of_put promise q (c_reference c) layerIds) as [-> ->].
      case_decide; [congruence | auto].
    + intros path r Hn. apply list_elem_of_singleton in Hn. discriminate.
    + exists layerIds. rewrite moved_of_app, puts_of_app, M, P.
      destruct (puts_of_put promise promise (c_reference c) layerIds) as [-> ->].
      case_decide; [auto using app_nil_r | congruence].
    + discriminate.
    + intros l. destruct (puts_of_put promise promise (c_reference c) layerIds)
        as [-> _].
      case_decide; [| congruence]. intros ->%list_elem_of_singleton.
      apply moved_of_elem. rewrite M. now apply list_elem_of_singleton.
  - apply (TraceInv_chain dir s _ promise c (Settled r) []); auto.
    + symmetry. apply app_nil_r.
    + intros path r' Hn. now apply not_elem_of_nil in Hn.
    + rewrite app_nil_r. pose proof (ti_stage _ _ HT _ _ H) as Hst.
      rewrite H0 in Hst. now right.
    + discriminate.
    + intros l Hn. now apply not_elem_of_nil in Hn.
  - destruct (onAny_lambda_effect env (c_name c) (c_staging c) s)
      as (_ & Ch & N & _ & res & Tr).
    pose proof (ti_stage _ _ HT _ _ H) as Hst. rewrite H0 in Hst.
    assert (Hsil : ∀ q,
      moved_of q (EvErase (c_name c) :: EvRmdir (c_staging c) res ::
                  match res with
                  | Some e0 => [EvWarning ("Failed to remove staging directory: "
                                           +:+ e0)]
                  | None => []
                  end) = []
      ∧ puts_of q (EvErase (c_name c) :: EvRmdir (c_staging c) res ::
                   match res with
                   | Some e0 => [EvWarning ("Failed to remove staging directory: "
                                            +:+ e0)]
                   | None => []
                   end) = []) by (intros q; now destruct res).
    eapply (TraceInv_chain dir s _ promise c (Cleaned r)); simpl;
      [exact HT | exact Tr | now rewrite Ch | exact N | exact H
      | auto | | | |].
    + intros path r' Hn.
      apply elem_of_cons in Hn as [Hn|Hn]; [discriminate |].
      apply elem_of_cons in Hn as [Hn|Hn].
      * injection Hn as -> _. eapply inv_staging; eassumption.
      * destruct res; [apply list_elem_of_singleton in Hn; discriminate |].
        now apply not_elem_of_nil in Hn.
    + destruct (Hsil promise) as [M P].
      apply (stage_trace_ext promise (Cleaned r)); [exact M | exact P | exact Hst].
    + intros r' _. split; [apply elem_of_cons; now left |].
      exists res. apply elem_of_cons. right. apply elem_of_cons. now left.
    + intros l. destruct (Hsil promise) as [_ ->].
      intros Hn. now apply not_elem_of_nil in Hn.
Qed.

Lemma run_TraceInv ms s rs s' :
  Inv dir s → TraceInv dir s → run env ms s = Some (rs, s') → TraceInv dir s'.
Proof.
  revert s rs. induction ms as [|m ms IH]; intros s rs HI HT H.
  - simpl in H. now injection H as <- <-.
  - apply run_cons in H as (r & s1 & rs' & -> & T & H).
    apply (IH s1 rs'); eauto using transition_Inv, transition_TraceInv.
Qed.

Lemma reachable_TraceInv s : reachable env s → TraceInv dir s.
Proof.
  intros (disk & ms & rs & H).
  eapply run_TraceInv; [apply Inv_init | apply TraceInv_init | exact H].
Qed.

End TraceInvariant.

(** ** Persistence after placement *)

Lemma failed_move_no_put dir s p e :
  TraceInv dir s → EvMoved p (Failed e) ∈ trace s →
  ∀ reference layerIds, EvPut p reference layerIds ∉ trace s.
Proof.
  intros HT Hm reference layerIds Hp.
  apply moved_of_elem in Hm.
  assert (Hp' : layerIds ∈ puts_of p (trace s)) by (apply puts_of_elem; eauto).
  destruct (chains s !! p) as [c|] eqn:E.
  - pose proof (ti_stage _ _ HT _ _ E) as Hst. unfold stage_trace in Hst.
    destruct (c_stage c);
      repeat match goal with
             | H : _ ∧ _ |- _ => destruct H
             | H : _ ∨ _ |- _ => destruct H
             | H : ∃ _, _ |- _ => destruct H
             | H : moved_of p (trace s) = _ |- _ => rewrite H in Hm; clear H
             | H : puts_of p (trace s) = _ |- _ => rewrite H in Hp'; clear H
             end;
      try (now apply not_elem_of_nil in Hm);
      try (now apply not_elem_of_nil in Hp');
      apply list_elem_of_singleton in Hm; discriminate.
  - destruct (ti_unborn _ _ HT _ E) as [U1 _]. rewrite U1 in Hm.
    now apply not_elem_of_nil in Hm.
Qed.

(** C6: in every state the actor can reach, a call of [put] by the chain
    of a pull comes after the return of that chain's [moveLayers] with
    success and with the very layers put; a chain whose [moveLayers]
    failed never calls [put].  While [moveLayers] is still queued nothing
    has been put; the continuation runs it, logs what it returned, and it
    returns success exactly when every layer's [moveLayer] did; if one of
    them fails, no later state has a [put] for this pull. *)
Theorem C6_put_after_placement (env : Env) (s : StoreProcess) :
  reachable env s →
  (∀ i p reference layerIds,
     trace s !! i = Some (EvPut p reference layerIds) →
     ∃ j, j < i ∧ trace s !! j = Some (EvMoved p (Ready layerIds)))
  ∧ (∀ p e, EvMoved p (Failed e) ∈ trace s →
            ∀ reference layerIds, EvPut p reference layerIds ∉ trace s)
  ∧ (∀ p c layerIds,
       chains s !! p = Some c → c_stage c = MoveQueued layerIds →
       let moved := moveLayers env (c_staging c) layerIds s in
       let each := placements env (c_staging c) layerIds s in
       (∀ reference ls, EvPut p reference ls ∉ trace s)
       ∧ ∃ s', step env (Run_moveLayers p) s = Next NoReply s'
           ∧ trace s' = trace (snd moved) ++ [EvMoved p (fst moved)]
           ∧ (fst moved = Ready layerIds
              ↔ Forall (fun f => ∃ a, f = Ready a) each)
           ∧ (Exists (fun f => ∃ e, f = Failed e) each →
              ∀ ms rs s'', run env ms s' = Some (rs, s'') →
              ∀ reference ls, EvPut p reference ls ∉ trace s'')).
Proof.
  intros Hr.
  pose proof (reachable_Inv env s Hr) as HI.
  pose proof (reachable_TraceInv env s Hr) as HT.
  split; [apply (ti_order _ _ HT) |].
  split; [intros p e; now apply (failed_move_no_put (docker_store_dir env) s) |].
  intros p c layerIds Hc Hst moved each. subst moved each. split.
  - intros reference ls Hp.
    pose proof (ti_stage _ _ HT _ _ Hc) as Hs. rewrite Hst in Hs.
    destruct Hs as [_ P].
    assert (Hp' : ls ∈ puts_of p (trace s)) by (apply puts_of_elem; eauto).
    rewrite P in Hp'. now apply not_elem_of_nil in Hp'.
  - destruct (moveLayers_result env (c_staging c) layerIds s)
      as [_ [[E Hall]|(e & E & Hex)]].
    + eexists. split; [apply transition_step; now apply (T_moved env s p c layerIds) |].
      rewrite E. split; [reflexivity |]. split; [tauto |].
      intros Hex. exfalso. apply Exists_exists in Hex as (f & Hf & e & ->).
      rewrite Forall_forall in Hall. destruct (Hall _ Hf) as [a Ha]. discriminate.
    + pose proof (T_move_failed env s p c layerIds e Hc Hst E) as T.
      eexists. split; [apply transition_step; exact T |].
      rewrite E. split; [reflexivity |]. split.
      * split; [discriminate |]. intros Hall. exfalso.
        apply Exists_exists in Hex as (f & Hf & e' & ->).
        rewrite Forall_forall in Hall. destruct (Hall _ Hf) as [a Ha]. discriminate.
      * intros _ ms rs s'' Hrun.
        assert (Hr1 : reachable env
                  (set_chains <[p := set_stage (Settled (Error e)) c]>
                     (log (EvMoved p (Failed e))
                        (snd (moveLayers env (c_staging c) layerIds s))))).
        { eapply (reachable_run env [Run_moveLayers p]); [exact Hr |].
          cbn [run]. rewrite (transition_step _ _ _ _ _ T). reflexivity. }
        pose proof (reachable_run env _ _ _ _ Hr1 Hrun) as Hr2.
        apply (failed_move_no_put (docker_store_dir env) _ p e
                 (reachable_TraceInv env _ Hr2)).
        destruct (run_trace env _ _ _ _ (reachable_Inv env _ Hr1) Hrun) as (evs & ->).
        apply elem_of_app. left. simpl. apply elem_of_app. right.
        now apply list_elem_of_singleton.
Qed.

(** ** Settlement and cleanup *)

(** Once settled, a promise keeps its result. *)
Lemma transition_outcome env s m r s' p res :
  Inv (docker_store_dir env) s → promise_outcome s p = Some res →
  transition env s m r s' → promise_outcome s' p = Some res.
Proof.
  intros HI Ho T. unfold promise_outcome in *.
  destruct (chains s !! p) as [d|] eqn:Ed; [| discriminate].
  assert (Hadv : ∀ q c st s1,
    chains s1 = chains s → chains s !! q = Some c →
    (q = p → c_stage (set_stage st c) = Cleaned res) →
    match chains (set_chains <[q := set_stage st c]> s1) !! p with
    | Some c0 => match c_stage c0 with
                 | Settled r0 | Cleaned r0 => Some r0
                 | _ => None
                 end
    | None => None
    end = Some res).
  { intros q c st s1 Ch Hc Hq. simpl. rewrite Ch, lookup_insert.
    case_decide; [| now rewrite Ed]. now rewrite Hq. }
  destruct T; simpl; rewrite ?Ed; try exact Ho.
  - destruct (get_effect env image s) as [->|[x ->]]; simpl; now rewrite Ed.
  - rewrite lookup_insert_ne; [now rewrite Ed |].
    apply (inv_fresh _ _ HI) in Ed. lia.
  - pose proof (__get_step env image s) as Hs. rewrite H0 in Hs. simpl in Hs.
    now rewrite (os_chains _ _ _ Hs), Ed.
  - apply Hadv; auto. intros ->. rewrite H in Ed. injection Ed as ->.
    rewrite H0 in Ho. discriminate.
  - apply Hadv; auto. intros ->. rewrite H in Ed. injection Ed as ->.
    rewrite H0 in Ho. discriminate.
  - apply Hadv; auto.
    + simpl. apply (os_chains _ _ _ (moveLayers_step env _ _ s
                                      (inv_staging _ _ HI _ _ H))).
    + intros ->. rewrite H in Ed. injection Ed as ->.
      rewrite H0 in Ho. discriminate.
  - apply Hadv; auto.
    + simpl. apply (os_chains _ _ _ (moveLayers_step env _ _ s
                                      (inv_staging _ _ HI _ _ H))).
    + intros ->. rewrite H in Ed. injection Ed as ->.
      rewrite H0 in Ho. discriminate.
  - apply Hadv; auto. intros ->. rewrite H in Ed. injection Ed as ->.
    rewrite H0 in Ho. discriminate.
  - apply Hadv; auto. intros ->. rewrite H in Ed. injection Ed as ->.
    rewrite H0 in Ho. discriminate.
  - apply Hadv; auto.
    + now destruct (onAny_lambda_effect env (c_name c) (c_staging c) s)
        as (_ & Ch & _).
    + intros ->. rewrite H in Ed. injection Ed as ->.
      rewrite H0 in Ho. simpl. congruence.
Qed.

Lemma run_outcome env ms s rs s' p res :
  Inv (docker_store_dir env) s → promise_outcome s p = Some res →
  run env ms s = Some (rs, s') → promise_outcome s' p = Some res.
Proof.
  revert s rs. induction ms as [|m ms IH]; intros s rs HI Ho H.
  - simpl in H. now injection H as <- <-.
  - apply run_cons in H as (r & s1 & rs' & -> & T & H).
    apply (IH s1 rs'); eauto using transition_Inv, transition_outcome.
Qed.

(** C5: a promise settled with [res], an image or a failure alike, is in
    one of two states.  Either its [onAny] callback is still queued: then
    the actor can run it, the callback erases the key of the pull from the
    table, where it stood for this promise, calls [rmdir] on the staging
    directory of the pull and logs a warning if that fails, and the promise
    is still settled with [res].  Or the callback has run: then the trace
    holds the erasure and the [rmdir].  In either case the promise is
    settled with [res] in every later state. *)
Theorem C5_cleanup_on_settle (env : Env) (s : StoreProcess) (p : nat)
  (res : Try Image) :
  reachable env s → promise_outcome s p = Some res →
  ∃ c, chains s !! p = Some c
  ∧ ((c_stage c = Settled res
      ∧ pulling s !! c_name c = Some p
      ∧ ∃ s' rm,
          step env (Run_onAny p) s = Next NoReply s'
          ∧ pulling s' !! c_name c = None
          ∧ trace s' = trace s ++ EvErase (c_name c) :: EvRmdir (c_staging c) rm ::
              match rm with
              | Some e => [EvWarning ("Failed to remove staging directory: " +:+ e)]
              | None => []
              end
          ∧ promise_outcome s' p = Some res)
     ∨ (c_stage c = Cleaned res
        ∧ EvErase (c_name c) ∈ trace s
        ∧ ∃ rm, EvRmdir (c_staging c) rm ∈ trace s))
  ∧ ∀ ms rs s'', run env ms s = Some (rs, s'') → promise_outcome s'' p = Some res.
Proof.
  intros Hr Ho.
  pose proof (reachable_Inv env s Hr) as HI.
  pose proof (reachable_TraceInv env s Hr) as HT.
  pose proof Ho as Ho'. unfold promise_outcome in Ho'.
  destruct (chains s !! p) as [c|] eqn:Ec; [| discriminate].
  exists c. split; [reflexivity |]. split.
  - destruct (c_stage c) as [| | | |r|r] eqn:Est; try discriminate;
      injection Ho' as ->.
    + left. split; [reflexivity |].
      assert (Hp : pulling s !! c_name c = Some p).
      { apply (inv_chain _ _ HI); [exact Ec |]. unfold unfinished. now rewrite Est. }
      split; [exact Hp |].
      pose proof (T_cleanup env s p c res Ec Est) as T.
      destruct (onAny_lambda_effect env (c_name c) (c_staging c) s)
        as (P & _ & _ & _ & rm & Tr).
      eexists. exists rm. split; [apply transition_step; exact T |].
      split; [| split].
      * simpl. rewrite P. apply lookup_delete_eq.
      * exact Tr.
      * eapply transition_outcome; eassumption.
    + right. split; [reflexivity |]. apply (ti_cleaned _ _ HT _ _ _ Ec Est).
  - intros ms rs s''. now apply run_outcome.
Qed.

(** ** No rollback of placed layers *)

Lemma staging_not_in_layers dir path :
  in_staging dir path → in_layers dir path = false.
Proof.
  intros [x ->]. unfold in_layers. destruct (under _ _) eqn:E; [| reflexivity].
  apply under_split in E as [r E]. unfold getStagingDir, path_join in E.
  rewrite !append_assoc in E. apply append_cancel in E. discriminate E.
Qed.

(** C10: whatever messages the actor takes from a state it can reach, and
    however the pulls among them end, every path below the layers root that
    was on disk is still on disk, the directory of every placed layer among
    them; every [rmdir] the store ever made was on a directory of the
    staging root, outside the layers root; and the cleanup of a settled
    pull leaves the disk as it is or removes the staging directory of that
    pull. *)
Theorem C10_layers_never_removed (env : Env) (s : StoreProcess) (ms : list Msg)
  (rs : list Reply) (s' : StoreProcess) :
  reachable env s → run env ms s = Some (rs, s') →
  let dir := docker_store_dir env in
  (∀ q, in_layers dir q = true → q ∈ fs s → q ∈ fs s')
  ∧ (∀ layerId, getImageLayerPath dir layerId ∈ fs s →
                getImageLayerPath dir layerId ∈ fs s')
  ∧ (∀ path r, EvRmdir path r ∈ trace s' →
               in_staging dir path ∧ in_layers dir path = false)
  ∧ (∀ p c res, chains s' !! p = Some c → c_stage c = Settled res →
       ∃ s'', step env (Run_onAny p) s' = Next NoReply s''
              ∧ (fs s'' = fs s' ∨ fs s'' = removed (c_staging c) (fs s'))).
Proof.
  intros Hr Hrun dir.
  pose proof (reachable_Inv env s Hr) as HI.
  pose proof (run_layers env ms s rs s' HI Hrun) as HL.
  pose proof (reachable_run env ms s rs s' Hr Hrun) as Hr'.
  pose proof (reachable_TraceInv env s' Hr') as HT'.
  split; [exact HL |]. split; [| split].
  - intros layerId. apply HL, layer_path_in_layers.
  - intros path r Hin. pose proof (ti_rmdir _ _ HT' _ _ Hin) as Hs.
    split; [exact Hs | now apply staging_not_in_layers].
  - intros p c res Hc Hst.
    pose proof (T_cleanup env s' p c res Hc Hst) as T.
    eexists. split; [apply transition_step; exact T |]. simpl.
    now destruct (onAny_lambda_effect env (c_name c) (c_staging c) s')
      as (_ & _ & _ & Hfs & _).
Qed.

(** ** One pull per key *)

Lemma pulls_of_app name tr evs :
  pulls_of name (tr ++ evs) = pulls_of name tr + pulls_of name evs.
Proof. unfold pulls_of. now rewrite List.filter_app, length_app. Qed.

Lemma pulls_of_os_events name evs :
  Forall (fun e => is_os_event e = true) evs → pulls_of name evs = 0.
Proof.
  induction 1 as [|e evs He _ IH]; [reflexivity |].
  change (e :: evs) with ([e] ++ evs). rewrite pulls_of_app, IH.
  now destruct e.
Qed.

Lemma since_app s s' evs : trace s' = trace s ++ evs → since s s' = evs.
Proof. intros E. unfold since. rewrite E. apply drop_app_length. Qed.

Lemma get_replies_cons name m r ms rs :
  get_replies name (m :: ms) (r :: rs)
  = head_reply name m r ++ get_replies name ms rs.
Proof.
  destruct m as [| |reference [image|]| | | | | |], r; try reflexivity.
  simpl. now destruct (bool_decide _).
Qed.

Section Dedup.

Variable env : Env.
Let dir := docker_store_dir env.

(** A step leaves the table alone and invokes no Puller, or it is the
    start of a pull, or it is the cleanup of one. *)
Lemma transition_table s m r s' :
  Inv dir s → transition env s m r s' →
  ∃ evs, trace s' = trace s ++ evs ∧
    ((pulling s' = pulling s ∧ (∀ name, pulls_of name evs = 0)
      ∧ call_reply_ok s m r)
     ∨ (∃ reference,
          m = LookupSettled reference None
          ∧ pulling s !! stringify reference = None
          ∧ r = RImage (Pending (next_promise s))
          ∧ pulling s' = <[stringify reference := next_promise s]> (pulling s)
          ∧ ∀ name, pulls_of name evs
                    = if decide (stringify reference = name) then 1 else 0)
     ∨ (∃ p c,
          m = Run_onAny p ∧ chains s !! p = Some c
          ∧ pulling s !! c_name c = Some p
          ∧ pulling s' = delete (c_name c) (pulling s)
          ∧ EvErase (c_name c) ∈ evs
          ∧ ∀ name, pulls_of name evs = 0)).
Proof.
  intros HI T. destruct T.
  - exists [EvRecover]. split; [reflexivity |]. left. now repeat split.
  - destruct (get_effect env image s) as [->|[x ->]].
    + exists []. split; [symmetry; apply app_nil_r |]. left. now repeat split.
    + eexists [_]. split; [reflexivity |]. left. now repeat split.
  - exists []. split; [symmetry; apply app_nil_r |]. left. now repeat split.
  - eexists [_]. split; [reflexivity |]. left. repeat split; auto.
    left. eexists. split; [reflexivity |]. now exists e.
  - eexists [_]. split; [reflexivity |]. left. repeat split; auto.
    right. eauto.
  - eexists. split; [reflexivity |]. right. left. exists reference.
    repeat split; auto. intros name. unfold pulls_of. simpl.
    rewrite bool_decide_decide. now destruct (decide _).
  - pose proof (__get_step env image s) as Hs. rewrite H0 in Hs. simpl in Hs.
    destruct Hs as [P _ _ (evs & Tr & Hev) _].
    exists evs. split; [exact Tr |]. left. repeat split; auto.
    intros name. now apply pulls_of_os_events.
  - exists []. split; [symmetry; apply app_nil_r |]. left. now repeat split.
  - exists []. split; [symmetry; apply app_nil_r |]. left. now repeat split.
  - destruct (moveLayers_step env (c_staging c) layerIds s
                (inv_staging _ _ HI _ _ H)) as [P _ _ (evs & Tr & Hev) _].
    exists (evs ++ [EvMoved promise (Ready layerIds)]).
    split; [simpl; now rewrite Tr, app_assoc |]. left. repeat split; auto.
    intros name. rewrite pulls_of_app, pulls_of_os_events by exact Hev. reflexivity.
  - destruct (moveLayers_step env (c_staging c) layerIds s
                (inv_staging _ _ HI _ _ H)) as [P _ _ (evs & Tr & Hev) _].
    exists (evs ++ [EvMoved promise (Failed e)]).
    split; [simpl; now rewrite Tr, app_assoc |]. left. repeat split; auto.
    intros name. rewrite pulls_of_app, pulls_of_os_events by exact Hev. reflexivity.
  - eexists [_]. split; [reflexivity |]. left. now repeat split.
  - exists []. split; [symmetry; apply app_nil_r |]. left. now repeat split.
  - destruct (onAny_lambda_effect env (c_name c) (c_staging c) s)
      as (P & _ & _ & _ & rm & Tr).
    eexists. split; [exact Tr |]. right. right. exists promise, c.
    repeat split; auto.
    + apply (inv_chain _ _ HI); [exact H |]. unfold unfinished. now rewrite H0.
    + apply elem_of_cons. now left.
    + intros name. now destruct rm.
Qed.

(** While the entry of a key stands, calls for the key join it. *)
Lemma joined_while_registered name p ms s rs s' :
  Inv dir s → pulling s !! name = Some p →
  run env ms s = Some (rs, s') → EvErase name ∉ since s s' →
  pulling s' !! name = Some p
  ∧ pulls_of name (since s s') = 0
  ∧ ∀ f, f ∈ get_replies name ms rs → f = Pending p ∨ staging_failure f.
Proof.
  revert s rs. induction ms as [|m ms IH]; intros s rs HI Hp Hrun Hne.
  - simpl in Hrun. injection Hrun as <- <-. unfold since.
    rewrite drop_all. repeat split; auto. intros f Hf. now apply not_elem_of_nil in Hf.
  - apply run_cons in Hrun as (r & s1 & rs' & -> & T & Hrun).
    pose proof (transition_Inv env _ _ _ _ HI T) as HI1.
    destruct (run_trace env _ _ _ _ HI1 Hrun) as (evs2 & E2).
    destruct (transition_table _ _ _ _ HI T) as (evs1 & E1 & Hcase).
    assert (Es : since s s' = evs1 ++ evs2).
    { apply since_app. now rewrite E2, E1, app_assoc. }
    rewrite Es in *.
    apply not_elem_of_app in Hne as [Hne1 Hne2].
    rewrite pulls_of_app, get_replies_cons.
    assert (Hstep : pulling s1 !! name = Some p ∧ pulls_of name evs1 = 0
                    ∧ ∀ f, f ∈ head_reply name m r → f = Pending p ∨ staging_failure f).
    { destruct Hcase as [(P & Hz & Hok)|[(reference & -> & Hn & -> & P & Hz)
                                        |(q & c & -> & Hc & Hq & P & He & Hz)]].
      - rewrite P. repeat split; auto. intros f Hf.
        destruct m as [| |reference [image|]| | | | | |], r;
          try (now apply not_elem_of_nil in Hf).
        simpl in Hf. case_bool_decide as Hk; [| now apply not_elem_of_nil in Hf].
        apply list_elem_of_singleton in Hf as ->.
        destruct Hok as [(f' & [= <-] & Hf')|(p' & Hp' & [= ->])]; [now right |].
        left. rewrite Hk in Hp'. congruence.
      - assert (stringify reference ≠ name) as Hk by congruence.
        rewrite P, lookup_insert_ne by exact Hk. rewrite Hz.
        destruct (decide _); [contradiction |]. repeat split; auto.
        intros f. simpl. rewrite bool_decide_eq_false_2 by exact Hk.
        intros Hf. now apply not_elem_of_nil in Hf.
      - assert (c_name c ≠ name) as Hk by (intros <-; contradiction).
        rewrite P, lookup_delete_ne by exact Hk. repeat split; auto.
        intros f Hf. now apply not_elem_of_nil in Hf. }
    destruct Hstep as (Hp1 & Hz1 & Hh).
    destruct (IH s1 rs' HI1 Hp1 Hrun) as (Hp' & Hz' & Hr').
    { now rewrite (since_app _ _ _ E2). }
    rewrite (since_app _ _ _ E2) in Hz'.
    repeat split; [exact Hp' | lia |].
    intros f [Hf|Hf]%elem_of_app; auto.
Qed.

(** From a state without an entry for the key: at most one pull starts
    before the next erasure, and every call whose staging directory was
    made gets the future of that pull. *)
Lemma one_pull_until_erased name ms s rs s' :
  Inv dir s → pulling s !! name = None →
  run env ms s = Some (rs, s') → EvErase name ∉ since s s' →
  pulls_of name (since s s') ≤ 1
  ∧ ∃ p, ∀ f, f ∈ get_replies name ms rs →
              (f = Pending p ∧ pulls_of name (since s s') = 1)
              ∨ staging_failure f.
Proof.
  revert s rs. induction ms as [|m ms IH]; intros s rs HI Hn Hrun Hne.
  - simpl in Hrun. injection Hrun as <- <-. unfold since. rewrite drop_all.
    split; [unfold pulls_of; simpl; lia |]. exists 0. intros f Hf.
    now apply not_elem_of_nil in Hf.
  - apply run_cons in Hrun as (r & s1 & rs' & -> & T & Hrun).
    pose proof (transition_Inv env _ _ _ _ HI T) as HI1.
    destruct (run_trace env _ _ _ _ HI1 Hrun) as (evs2 & E2).
    destruct (transition_table _ _ _ _ HI T) as (evs1 & E1 & Hcase).
    assert (Es : since s s' = evs1 ++ evs2).
    { apply since_app. now rewrite E2, E1, app_assoc. }
    rewrite Es in *. pose proof (since_app _ _ _ E2) as Es1.
    apply not_elem_of_app in Hne as [Hne1 Hne2].
    rewrite pulls_of_app. setoid_rewrite get_replies_cons.
    destruct Hcase as [(P & Hz & Hok)|[(reference & -> & Hk & -> & P & Hz)
                                       |(q & c & -> & Hc & Hq & P & He & Hz)]].
    + destruct (IH s1 rs' HI1) as (Hle & p & Hr'); [now rewrite P | exact Hrun
                                                   | now rewrite Es1 |].
      rewrite Es1 in Hle, Hr'. rewrite Hz. split; [lia |]. exists p.
      intros f [Hf|Hf]%elem_of_app; [| now apply Hr'].
      destruct m as [| |reference [image|]| | | | | |], r;
        try (now apply not_elem_of_nil in Hf).
      simpl in Hf. case_bool_decide as Hk; [| now apply not_elem_of_nil in Hf].
      apply list_elem_of_singleton in Hf as ->.
      destruct Hok as [(f' & [= <-] & Hf')|(p' & Hp' & [= ->])]; [now right |].
      rewrite Hk in Hp'. congruence.
    + rewrite Hz. destruct (decide (stringify reference = name)) as [Heq|Hneq].
      * destruct (joined_while_registered name (next_promise s) ms s1 rs' s')
          as (_ & Hz' & Hr'); auto.
        { rewrite P, Heq. apply lookup_insert_eq. }
        { now rewrite Es1. }
        rewrite Es1 in Hz'. rewrite Hz'. split; [lia |].
        exists (next_promise s). intros f [Hf|Hf]%elem_of_app.
        -- simpl in Hf. rewrite bool_decide_eq_true_2 in Hf by exact Heq.
           apply list_elem_of_singleton in Hf as ->. now left.
        -- destruct (Hr' f Hf) as [->|Hs]; [now left | now right].
      * destruct (IH s1 rs' HI1) as (Hle & p & Hr');
          [now rewrite P, lookup_insert_ne | exact Hrun | now rewrite Es1 |].
        rewrite Es1 in Hle, Hr'. split; [lia |]. exists p.
        intros f [Hf|Hf]%elem_of_app; [| now apply Hr'].
        simpl in Hf. rewrite bool_decide_eq_false_2 in Hf by exact Hneq.
        now apply not_elem_of_nil in Hf.
    + destruct (IH s1 rs' HI1) as (Hle & p & Hr'); [| exact Hrun | now rewrite Es1 |].
      { rewrite P, lookup_delete. now case_decide. }
      rewrite Es1 in Hle, Hr'. rewrite Hz. split; [lia |]. exists p.
      intros f [Hf|Hf]%elem_of_app; [now apply not_elem_of_nil in Hf | now apply Hr'].
Qed.

End Dedup.

(** C1, as the code has it.  In every state the actor can reach: two
    chains of one key whose cleanup has not run are the same chain, so at
    most one pull per reference is in flight; a call of [_get] that finds
    nothing cached, gets its staging directory and finds an entry for its
    key returns the future of that entry, and the process differs only by
    the new directory and its mkdtemp event, so the Puller is not invoked
    and the directory is recorded nowhere; and from a state without an entry
    for the key, until the key is next erased, the Puller is invoked at most
    once for it and every call for the key that got its staging directory
    holds the future of one and the same promise, of the one pull then
    invoked; the other calls fail on their own for want of a staging
    directory. *)
Theorem C1_one_pull_per_reference (env : Env) (s : StoreProcess)
  (reference : ImageReference) :
  reachable env s →
  let dir := docker_store_dir env in
  let name := stringify reference in
  (∀ p q c d, chains s !! p = Some c → chains s !! q = Some d →
     unfinished c = true → unfinished d = true → c_name c = c_name d → p = q)
  ∧ (∀ p suffix, pulling s !! name = Some p → mkdtemp_answer env s = Ok suffix →
       let staging := path_join (getStagingDir dir) suffix in
       _get env reference None s
       = (Pending p,
          log (EvMkdtemp (getStagingTempDir dir) (Ok staging))
              (set_fs (fun d => {[staging]} ∪ d) s)))
  ∧ (∀ ms rs s', pulling s !! name = None → run env ms s = Some (rs, s') →
       EvErase name ∉ since s s' →
       pulls_of name (since s s') ≤ 1
       ∧ ∃ p, ∀ f, f ∈ get_replies name ms rs →
                   (f = Pending p ∧ pulls_of name (since s s') = 1)
                   ∨ staging_failure f).
Proof.
  intros Hr dir name. pose proof (reachable_Inv env s Hr) as HI.
  split; [| split].
  - intros p q c d Hc Hd Uc Ud E.
    pose proof (inv_chain _ _ HI _ _ Hc Uc) as Hp.
    pose proof (inv_chain _ _ HI _ _ Hd Ud) as Hq.
    rewrite E in Hp. congruence.
  - intros p suffix Hp Hm staging. rewrite _get_unfold. cbv zeta.
    fold dir name. now rewrite Hm, Hp.
  - intros ms rs s' Hn Hrun Hne.
    now apply (one_pull_until_erased env name ms s rs s').
Qed.

(** C3, as the code has it.  A call of [_get] that starts a pull invokes
    the Puller and then writes the entry, in that order and within the one
    call: when it returns, the table holds the promise under the key and
    the chain of the pull still waits for the Puller, no continuation of it
    has run.  From then on, until the key is erased, every state has the
    entry and no further Puller is invoked for the key. *)
Theorem C3_registered_within_get (env : Env) (s : StoreProcess)
  (reference : ImageReference) (suffix : string) :
  reachable env s →
  pulling s !! stringify reference = None →
  mkdtemp_answer env s = Ok suffix →
  let dir := docker_store_dir env in
  let name := stringify reference in
  let p := next_promise s in
  let staging := path_join (getStagingDir dir) suffix in
  ∃ s', _get env reference None s = (Pending p, s')
  ∧ trace s' = trace s ++ [EvMkdtemp (getStagingTempDir dir) (Ok staging);
                           EvPull p reference staging;
                           EvRegister name p]
  ∧ pulling s' !! name = Some p
  ∧ chains s' !! p = Some {| c_name := name; c_reference := reference;
                             c_staging := staging; c_stage := AwaitPull |}
  ∧ ∀ ms rs s'', run env ms s' = Some (rs, s'') → EvErase name ∉ since s' s'' →
      pulling s'' !! name = Some p ∧ pulls_of name (since s' s'') = 0.
Proof.
  intros Hr Hn Hm dir name p staging.
  pose proof (reachable_Inv env s Hr) as HI.
  pose proof (T_start env s reference suffix Hm Hn) as T.
  pose proof (transition_Inv env _ _ _ _ HI T) as HI'.
  eexists. split.
  { rewrite _get_unfold. cbv zeta. rewrite Hm, Hn. reflexivity. }
  split; [reflexivity |]. split; [apply lookup_insert_eq |].
  split; [apply lookup_insert_eq |].
  intros ms rs s'' Hrun Hne.
  destruct (joined_while_registered env name p ms _ rs s'' HI') as (H1 & H2 & _);
    auto.
  apply lookup_insert_eq.
Qed.

(** ** The model at work *)

Lemma init_reachable (env : Env) : reachable env (init ∅).
Proof. exists ∅, [], []. reflexivity. Qed.

Lemma state_after_reachable (env : Env) (ms : list Msg) :
  is_Some (run env ms (init ∅)) → reachable env (state_after env ms).
Proof.
  intros [[rs s] E]. exists ∅, ms, rs. unfold state_after. now rewrite E.
Qed.

(** C1, as the spec has it, fails, in two ways.  With a pull for the key in
    the table, a second request whose staging directory cannot be made is
    answered with its own failure, not with the future of the entry: of two
    concurrent requests one then holds the pull and the other a failure.
    And of two requests made one right after the other, the second reaches
    [_get] after the pull of the first has failed and its cleanup has erased
    the key: the Puller is invoked twice, the two requests hold the futures
    of two promises, and the first fails where the second succeeds. *)
Lemma C1_concurrent_requests_part_ways :
  (pulling (state_after env_full [LookupSettled busybox None]) !! stringify busybox
   = Some 0
   ∧ fst (_get env_full busybox None
            (state_after env_full [LookupSettled busybox None]))
     = Failed "Failed to create a staging directory: No space left on device"
   ∧ fst (_get env_full busybox None
            (state_after env_full [LookupSettled busybox None])) ≠ Pending 0
   ∧ get_replies (stringify busybox)
       [LookupSettled busybox None; LookupSettled busybox None]
       (replies_to env_full [LookupSettled busybox None; LookupSettled busybox None])
     = [Pending 0;
        Failed "Failed to create a staging directory: No space left on device"])
  ∧ (is_Some (run env_ok overlapping_requests (init ∅))
     ∧ take 2 (replies_to env_ok overlapping_requests)
       = [RImageInfo (Delegated 0); RImageInfo (Delegated 1)]
     ∧ pulling (init ∅) !! stringify busybox = None
     ∧ pulls_of (stringify busybox)
         (since (init ∅) (state_after env_ok overlapping_requests)) = 2
     ∧ get_replies (stringify busybox) overlapping_requests
         (replies_to env_ok overlapping_requests)
       = [Pending 0; Pending 1]
     ∧ promise_outcome (state_after env_ok overlapping_requests) 0
       = Some (Error "connection reset")
     ∧ promise_outcome (state_after env_ok overlapping_requests) 1
       = Some (Ok busybox_image)
     ∧ EvErase (stringify busybox)
       ∈ since (init ∅) (state_after env_ok overlapping_requests)).
Proof.
  split.
  - split; [vm_compute; reflexivity |]. split; [vm_compute; reflexivity |].
    split; [| vm_compute; reflexivity].
    intros H. vm_compute in H. discriminate H.
  - split; [vm_compute; eexists; reflexivity |].
    split; [vm_compute; reflexivity |]. split; [vm_compute; reflexivity |].
    split; [vm_compute; reflexivity |]. split; [vm_compute; reflexivity |].
    split; [vm_compute; reflexivity |]. split; [vm_compute; reflexivity |].
    decide_by_compute.
Qed.

Lemma C1_one_pull_per_reference_witness :
  pulls_of (stringify busybox)
    (since (init ∅) (state_after env_ok three_requests)) ≤ 1
  ∧ ∃ p, ∀ f,
      f ∈ get_replies (stringify busybox) three_requests
            (replies_to env_ok three_requests) →
      (f = Pending p
       ∧ pulls_of (stringify busybox)
           (since (init ∅) (state_after env_ok three_requests)) = 1)
      ∨ staging_failure f.
Proof.
  apply (proj2 (proj2 (C1_one_pull_per_reference env_ok (init ∅) busybox
                         (init_reachable env_ok)))).
  - vm_compute. reflexivity.
  - vm_compute. reflexivity.
  - decide_by_compute.
Defined.

(** C3, as the spec has it, fails: in the call that starts the pull, the
    Puller is invoked before the entry is written, not after. *)
Lemma C3_puller_invoked_before_registration :
  pulling (init ∅) !! stringify busybox = None
  ∧ precedes (EvPull 0 busybox "/store/staging/t0")
      (EvRegister (stringify busybox) 0)
      (trace (snd (_get env_ok busybox None (init ∅))))
  ∧ ¬ precedes (EvRegister (stringify busybox) 0)
        (EvPull 0 busybox "/store/staging/t0")
        (trace (snd (_get env_ok busybox None (init ∅)))).
Proof.
  assert (E : trace (snd (_get env_ok busybox None (init ∅)))
              = [EvMkdtemp "/store/staging/XXXXXX" (Ok "/store/staging/t0");
                 EvPull 0 busybox "/store/staging/t0";
                 EvRegister (stringify busybox) 0]) by (vm_compute; reflexivity).
  rewrite E. split; [vm_compute; reflexivity |]. split.
  - exists 1, 2. repeat split. lia.
  - intros (i & j & Hlt & Hi & Hj).
    destruct i as [|[|[|i]]]; simpl in Hi; try discriminate Hi.
    destruct j as [|[|[|j]]]; simpl in Hj; try discriminate Hj.
    lia.
Qed.

Lemma C3_registered_within_get_witness :
  ∃ s', _get env_ok busybox None (init ∅) = (Pending 0, s')
        ∧ pulling s' !! stringify busybox = Some 0.
Proof.
  destruct (C3_registered_within_get env_ok (init ∅) busybox "t0"
              (init_reachable env_ok))
    as (s' & H1 & _ & H2 & _).
  - vm_compute. reflexivity.
  - vm_compute. reflexivity.
  - exists s'. split; [exact H1 | exact H2].
Defined.

Lemma C5_cleanup_on_settle_witness :
  promise_outcome
    (state_after env_ok
       (pull_busybox ++ [Run_put 0; PutSettled 0 (Error "index not writable");
                         Run_onAny 0])) 0
  = Some (Error "index not writable").
Proof.
  destruct (C5_cleanup_on_settle env_ok
              (state_after env_ok
                 (pull_busybox ++ [Run_put 0;
                                   PutSettled 0 (Error "index not writable")]))
              0 (Error "index not writable"))
    as (c & _ & _ & Hlater).
  - apply state_after_reachable. vm_compute. eexists. reflexivity.
  - vm_compute. reflexivity.
  - apply (Hlater [Run_onAny 0] [NoReply]). vm_compute. reflexivity.
Defined.

Lemma C6_put_after_placement_witness :
  ∃ j, j < 12
       ∧ trace (state_after env_ok (pull_busybox ++ [Run_put 0])) !! j
         = Some (EvMoved 0 (Ready ["aaa"; "bbb"])).
Proof.
  assert (Hr : reachable env_ok (state_after env_ok (pull_busybox ++ [Run_put 0]))).
  { apply state_after_reachable. vm_compute. eexists. reflexivity. }
  apply (proj1 (C6_put_after_placement env_ok _ Hr) 12 0 busybox ["aaa"; "bbb"]).
  vm_compute. reflexivity.
Defined.

Lemma C10_layers_never_removed_witness :
  getImageLayerPath "/store" "aaa"
  ∈ fs (state_after env_ok
          (pull_busybox ++ [Run_put 0; PutSettled 0 (Error "index not writable");
                            Run_onAny 0])).
Proof.
  assert (Hr : reachable env_ok (state_after env_ok pull_busybox)).
  { apply state_after_reachable. vm_compute. eexists. reflexivity. }
  assert (Hrun : run env_ok
                   [Run_put 0; PutSettled 0 (Error "index not writable"); Run_onAny 0]
                   (state_after env_ok pull_busybox)
                 = Some ([NoReply; NoReply; NoReply],
                         state_after env_ok
                           (pull_busybox ++
                            [Run_put 0; PutSettled 0 (Error "index not writable");
                             Run_onAny 0]))).
  { vm_compute. reflexivity. }
  apply (proj1 (proj2 (C10_layers_never_removed env_ok _ _ _ _ Hr Hrun)) "aaa").
  decide_by_compute.
Defined.

(** ** What leaves the disk *)

Lemma under_join (p x q : string) : under (path_join p x) q = true → under p q = true.
Proof.
  intros H. apply under_split in H as [r ->]. unfold under.
  apply orb_true_iff. right. unfold path_join.
  rewrite <- (append_assoc p "/" x), append_assoc. apply prefix_append.
Qed.

Lemma removed_gone (p : string) (d : gset string) (q : string) :
  q ∈ d → q ∉ removed p d → under p q = true.
Proof.
  intros Hq Hn. destruct (under p q) eqn:E; [reflexivity |].
  exfalso. apply Hn. unfold removed. apply elem_of_filter. auto.
Qed.

Lemma renamed_gone (source target : string) (d : gset string) (q : string) :
  q ∈ d → q ∉ renamed source target d → under source q = true.
Proof.
  intros Hq Hn. destruct (under source q) eqn:E; [reflexivity |].
  exfalso. apply Hn. unfold renamed. apply elem_of_union. left.
  apply elem_of_filter. auto.
Qed.

Lemma moveLayer_gone env staging layerId s q :
  q ∈ fs s → q ∉ fs (snd (moveLayer env staging layerId s)) →
  under staging q = true.
Proof.
  rewrite moveLayer_unfold. cbv zeta. intros Hq Hn.
  destruct (bool_decide _); [| now elim Hn].
  destruct (bool_decide _); [now elim Hn |].
  destruct (mkdir_error _ _ _); [now elim Hn |].
  destruct (rename_error _ _ _ _); simpl in Hn.
  - elim Hn. apply elem_of_union. now right.
  - apply (under_join staging layerId). eapply renamed_gone; [| exact Hn].
    apply elem_of_union. now right.
Qed.

Lemma foreach_moveLayer_gone env staging layerIds futures s q :
  q ∈ fs s →
  q ∉ fs (snd (foreach layerIds
                 (fun layerId futures =>
                    let* f := moveLayer env staging layerId in ret (futures ++ [f]))
                 futures s)) →
  under staging q = true.
Proof.
  revert futures s. induction layerIds as [|l ls IH]; intros futures s Hq Hn.
  - now elim Hn.
  - simpl in Hn. rewrite bind_snd in Hn.
    destruct (decide (q ∈ fs (snd (moveLayer env staging l s)))) as [Hin|Hout].
    + eapply IH; [| exact Hn]. now rewrite bind_snd.
    + eapply moveLayer_gone; eassumption.
Qed.

Lemma moveLayers_gone env staging layerIds s q :
  q ∈ fs s → q ∉ fs (snd (moveLayers env staging layerIds s)) →
  under staging q = true.
Proof.
  unfold moveLayers. rewrite bind_snd. simpl. apply foreach_moveLayer_gone.
Qed.

Lemma __get_fs env image s : fs (snd (__get env image s)) = fs s.
Proof.
  unfold __get. destruct (negb _); [reflexivity |].
  unfold bind at 1. rewrite foreach_push_back. rewrite bind_snd.
  destruct (fst (os_read env _ s)); [| reflexivity].
  now destruct (parse_answer env _).
Qed.

(** How a step changes the promises: not at all, by moving one chain to
    another stage, or by adding the chain of a new pull. *)
Lemma transition_chains env s m r s' :
  Inv (docker_store_dir env) s → transition env s m r s' →
  chains s' = chains s
  ∨ (∃ p c st, chains s !! p = Some c ∧ chains s' = <[p := set_stage st c]> (chains s))
  ∨ (∃ c, chains s !! next_promise s = None
          ∧ chains s' = <[next_promise s := c]> (chains s)
          ∧ EvPull (next_promise s) (c_reference c) (c_staging c) ∈ trace s').
Proof.
  intros HI T. destruct T; simpl;
    try (now left);
    try (right; left; eexists _, _, _; split; [eassumption | reflexivity]).
  - left. now destruct (get_effect env image s) as [->|[x ->]].
  - right. right. eexists. split; [| split; [reflexivity |]].
    + destruct (chains s !! next_promise s) eqn:E; [| reflexivity].
      apply (inv_fresh _ _ HI) in E. lia.
    + simpl. apply elem_of_app. right. apply elem_of_cons. right.
      apply elem_of_cons. now left.
  - left. pose proof (__get_step env image s) as Hs. rewrite H0 in Hs.
    apply (os_chains _ _ _ Hs).
  - right. left. eexists _, _, _. split; [eassumption |].
    now rewrite (os_chains _ _ _ (moveLayers_step env _ _ s
                                    (inv_staging _ _ HI _ _ H))).
  - right. left. eexists _, _, _. split; [eassumption |].
    now rewrite (os_chains _ _ _ (moveLayers_step env _ _ s
                                    (inv_staging _ _ HI _ _ H))).
  - right. left. eexists _, _, _. split; [eassumption |].
    now destruct (onAny_lambda_effect env (c_name c) (c_staging c) s)
      as (_ & -> & _).
Qed.

(** A chain stays, with the staging directory, the key and the reference
    it was made with. *)
Lemma transition_chain_kept env s m r s' p c :
  Inv (docker_store_dir env) s → transition env s m r s' →
  chains s !! p = Some c →
  ∃ c', chains s' !! p = Some c' ∧ c_staging c' = c_staging c
        ∧ c_name c' = c_name c ∧ c_reference c' = c_reference c.
Proof.
  intros HI T Hc.
  destruct (transition_chains env s m r s' HI T)
    as [->|[(q & d & st & Hd & ->)|(d & Hn & -> & _)]].
  - eauto.
  - rewrite lookup_insert. case_decide; [subst | eauto].
    replace d with c by congruence. eauto.
  - rewrite lookup_insert_ne; [eauto | congruence].
Qed.

(** The chain of every promise was made by an invocation of the Puller,
    with the reference and the staging directory the chain holds. *)
Lemma transition_pull_logged env s m r s' :
  Inv (docker_store_dir env) s → transition env s m r s' →
  (∀ p c, chains s !! p = Some c →
          EvPull p (c_reference c) (c_staging c) ∈ trace s) →
  ∀ p c, chains s' !! p = Some c →
         EvPull p (c_reference c) (c_staging c) ∈ trace s'.
Proof.
  intros HI T Hold p c.
  destruct (transition_trace env s m r s' HI T) as (evs & Etr).
  assert (Hgrow : ∀ e, e ∈ trace s → e ∈ trace s').
  { intros e He. rewrite Etr. apply elem_of_app. now left. }
  destruct (transition_chains env s m r s' HI T)
    as [->|[(q & d & st & Hd & ->)|(d & Hn & -> & Hin)]].
  - auto.
  - rewrite lookup_insert. case_decide; [subst | auto].
    intros [= <-]. simpl. now apply Hgrow, Hold.
  - rewrite lookup_insert. case_decide; [subst | auto].
    now intros [= <-].
Qed.

Lemma reachable_pull_logged env s :
  reachable env s →
  ∀ p c, chains s !! p = Some c →
         EvPull p (c_reference c) (c_staging c) ∈ trace s.
Proof.
  intros (disk & ms & rs & H).
  assert (Hgen : ∀ ms s0 rs s1,
    Inv (docker_store_dir env) s0 →
    (∀ p c, chains s0 !! p = Some c →
            EvPull p (c_reference c) (c_staging c) ∈ trace s0) →
    run env ms s0 = Some (rs, s1) →
    ∀ p c, chains s1 !! p = Some c →
           EvPull p (c_reference c) (c_staging c) ∈ trace s1).
  { clear. intros ms. induction ms as [|m ms IH]; intros s0 rs s1 HI H0 Hrun.
    - simpl in Hrun. now injection Hrun as <- <-.
    - apply run_cons in Hrun as (r & s' & rs' & -> & T & Hrun).
      apply (IH s' rs' s1); eauto using transition_Inv, transition_pull_logged. }
  apply (Hgen ms (init disk) rs s); auto using Inv_init.
  intros p c. simpl. rewrite lookup_empty. discriminate.
Qed.

Lemma run_chain_kept env ms s rs s' p c :
  Inv (docker_store_dir env) s → run env ms s = Some (rs, s') →
  chains s !! p = Some c →
  ∃ c', chains s' !! p = Some c' ∧ c_staging c' = c_staging c
        ∧ c_name c' = c_name c ∧ c_reference c' = c_reference c.
Proof.
  revert s rs c. induction ms as [|m ms IH]; intros s rs c HI H Hc.
  - simpl in H. injection H as <- <-. eauto.
  - apply run_cons in H as (r & s1 & rs' & -> & T & H).
    destruct (transition_chain_kept env s m r s1 p c HI T Hc)
      as (c1 & Hc1 & E1 & E2 & E3).
    destruct (IH s1 rs' c1 (transition_Inv env _ _ _ _ HI T) H Hc1)
      as (c' & Hc' & F1 & F2 & F3).
    exists c'. repeat split; congruence.
Qed.

Lemma transition_gone env s m r s' q :
  transition env s m r s' → q ∈ fs s → q ∉ fs s' →
  ∃ p c, chains s !! p = Some c ∧ under (c_staging c) q = true.
Proof.
  intros T Hq Hn. destruct T; simpl in Hn;
    try (now elim Hn);
    try (elim Hn; apply elem_of_union; now right).
  - destruct (get_effect env image s) as [E|[x E]]; rewrite E in Hn; now elim Hn.
  - pose proof (__get_fs env image s) as E. rewrite H0 in E. simpl in E.
    rewrite E in Hn. now elim Hn.
  - exists promise, c. split; [assumption |]. eapply moveLayers_gone; eassumption.
  - exists promise, c. split; [assumption |]. eapply moveLayers_gone; eassumption.
  - exists promise, c. split; [assumption |].
    destruct (onAny_lambda_effect env (c_name c) (c_staging c) s)
      as (_ & _ & _ & [E|E] & _); rewrite E in Hn; [now elim Hn |].
    eapply removed_gone; eassumption.
Qed.

Lemma run_gone env ms s rs s' q :
  Inv (docker_store_dir env) s → run env ms s = Some (rs, s') →
  q ∈ fs s → q ∉ fs s' →
  ∃ p c, chains s' !! p = Some c ∧ under (c_staging c) q = true.
Proof.
  revert s rs. induction ms as [|m ms IH]; intros s rs HI H Hq Hn.
  - simpl in H. injection H as <- <-. now elim Hn.
  - apply run_cons in H as (r & s1 & rs' & -> & T & H).
    pose proof (transition_Inv env _ _ _ _ HI T) as HI1.
    destruct (decide (q ∈ fs s1)) as [Hin|Hout].
    + now apply (IH s1 rs').
    + destruct (transition_gone env s m r s1 q T Hq Hout) as (p & c & Hc & Hu).
      destruct (transition_chain_kept env s m r s1 p c HI T Hc)
        as (c1 & Hc1 & E1 & _).
      destruct (run_chain_kept env ms s1 rs' s' p c1 HI1 H Hc1)
        as (c' & Hc' & E' & _).
      exists p, c'. split; [exact Hc' | congruence].
Qed.

Lemma under_longer (a b : string) : b ≠ ""%string → under (a +:+ b) a = false.
Proof.
  intros Hb. destruct (under (a +:+ b) a) eqn:E; [| reflexivity].
  apply under_split in E as [r E]. exfalso. apply Hb.
  apply (f_equal String.length) in E. rewrite !length_append in E.
  destruct b; [reflexivity | simpl in E; lia].
Qed.

Lemma staging_below_roots dir p :
  in_staging dir p → under p dir = false ∧ under p (getStagingDir dir) = false.
Proof.
  intros [x ->]. split.
  - unfold getStagingDir, path_join. rewrite append_assoc.
    now apply under_longer.
  - unfold path_join at 1. now apply under_longer.
Qed.

Lemma Store_create_effect env fetcher puller metadataManager s :
  let r := Store_create env fetcher puller metadataManager s in
  pulling (snd r) = pulling s ∧ chains (snd r) = chains s
  ∧ next_promise (snd r) = next_promise s
  ∧ fs s ⊆ fs (snd r)
  ∧ (fst r = Ok tt →
     docker_store_dir env ∈ fs (snd r)
     ∧ getStagingDir (docker_store_dir env) ∈ fs (snd r)).
Proof.
  unfold Store_create, Store_create_with_puller, bind, os_mkdir, ret.
  destruct fetcher; [| now simpl].
  destruct puller; [| now simpl].
  destruct (mkdir_error env (docker_store_dir env) s); [now simpl |].
  destruct (mkdir_error env (getStagingDir _) _); [simpl; repeat split; set_solver |].
  destruct metadataManager; simpl; repeat split; try discriminate; set_solver.
Qed.

(** X1: [Store::create].  When it succeeds, the store directory and the
    staging root are on disk, the process starts with an empty table and no
    promise, and both directories are on disk in every state the process
    reaches from there.  It removes nothing that was on disk, so what an
    earlier run left in the staging root stays.  If the fetcher or the
    Puller cannot be created, no directory is made; and the error of a
    failed first mkdir comes back wrapped by both [create] functions. *)
Theorem X1_Store_create (env : Env) (fetcher puller metadataManager : Try unit)
  (disk : gset string) :
  let dir := docker_store_dir env in
  let r := Store_create env fetcher puller metadataManager (init disk) in
  (fst r = Ok tt →
     dir ∈ fs (snd r) ∧ getStagingDir dir ∈ fs (snd r)
     ∧ pulling (snd r) = ∅ ∧ chains (snd r) = ∅
     ∧ ∀ ms rs s', run env ms (snd r) = Some (rs, s') →
                   dir ∈ fs s' ∧ getStagingDir dir ∈ fs s')
  ∧ disk ⊆ fs (snd r)
  ∧ ((∃ e, fetcher = Error e) ∨ (∃ e, puller = Error e) →
     ∃ e, r = (Error e, init disk))
  ∧ (∀ e, fetcher = Ok tt → puller = Ok tt →
          mkdir_error env dir (init disk) = Some e →
          r = (Error ("Failed to create Docker store: " +:+
                      "Failed to create Docker store directory: " +:+ e),
               log (EvMkdir dir (Some e)) (init disk))).
Proof.
  intros dir r.
  destruct (Store_create_effect env fetcher puller metadataManager (init disk))
    as (P & C & N & Hsub & Hok). fold r in P, C, N, Hsub, Hok.
  split; [| split; [exact Hsub | split]].
  - intros E. destruct (Hok E) as [Hd Hs].
    assert (HI : Inv dir (snd r)) by (apply (Inv_same dir (init disk)); auto using Inv_init).
    split; [exact Hd |]. split; [exact Hs |].
    split; [now rewrite P |]. split; [now rewrite C |].
    intros ms rs s' Hrun.
    pose proof (run_Inv env ms _ rs s' HI Hrun) as HI'.
    split.
    + destruct (decide (dir ∈ fs s')) as [|Hn]; [assumption | exfalso].
      destruct (run_gone env ms _ rs s' dir HI Hrun Hd Hn) as (p & c & Hc & Hu).
      destruct (staging_below_roots dir _ (inv_staging _ _ HI' _ _ Hc)) as [E1 _].
      unfold dir in *. congruence.
    + destruct (decide (getStagingDir dir ∈ fs s')) as [|Hn]; [assumption | exfalso].
      destruct (run_gone env ms _ rs s' _ HI Hrun Hs Hn) as (p & c & Hc & Hu).
      destruct (staging_below_roots dir _ (inv_staging _ _ HI' _ _ Hc)) as [_ E2].
      unfold dir in *. congruence.
  - subst r. unfold Store_create.
    intros [[e ->]|[e ->]]; [eauto |]. destruct fetcher; eauto.
  - intros e -> -> He. subst r.
    unfold Store_create, Store_create_with_puller, bind, os_mkdir.
    fold dir. now rewrite He.
Qed.

(** X2: whatever messages the actor takes, a path that was on disk and is
    no longer there lay in or below the staging directory of a pull the
    store started: renames move away only what the Puller staged, and the
    only removal is the cleanup's. *)
Theorem X2_only_staged_paths_leave_disk (env : Env) (s : StoreProcess)
  (ms : list Msg) (rs : list Reply) (s' : StoreProcess) (q : string) :
  reachable env s → run env ms s = Some (rs, s') →
  q ∈ fs s → q ∉ fs s' →
  ∃ p c, chains s' !! p = Some c
         ∧ under (c_staging c) q = true
         ∧ in_staging (docker_store_dir env) (c_staging c)
         ∧ ∃ i, trace s' !! i = Some (EvPull p (c_reference c) (c_staging c)).
Proof.
  intros Hr Hrun Hq Hn.
  pose proof (reachable_Inv env s Hr) as HI.
  pose proof (run_Inv env ms s rs s' HI Hrun) as HI'.
  destruct (run_gone env ms s rs s' q HI Hrun Hq Hn) as (p & c & Hc & Hu).
  exists p, c. repeat split; auto.
  - eapply inv_staging; eassumption.
  - apply list_elem_of_lookup.
    apply (reachable_pull_logged env s' (reachable_run env ms s rs s' Hr Hrun) p c Hc).
Qed.

Lemma X2_only_staged_paths_leave_disk_witness :
  ∃ p c,
    chains (state_after env_ok pull_busybox) !! p = Some c
    ∧ under (c_staging c) "/store/staging/t0/aaa" = true.
Proof.
  assert (Hr : reachable env_ok
                 (state_after env_ok
                    [LookupSettled busybox None;
                     PullSettled 0 ["aaa"; "aaa/rootfs"; "bbb"] (Ok ["aaa"; "bbb"])])).
  { apply state_after_reachable. vm_compute. eexists. reflexivity. }
  assert (Hrun : run env_ok [Run_moveLayers 0]
                   (state_after env_ok
                      [LookupSettled busybox None;
                       PullSettled 0 ["aaa"; "aaa/rootfs"; "bbb"] (Ok ["aaa"; "bbb"])])
                 = Some ([NoReply], state_after env_ok pull_busybox)).
  { vm_compute. reflexivity. }
  destruct (X2_only_staged_paths_leave_disk env_ok _ _ _ _ "/store/staging/t0/aaa"
              Hr Hrun) as (p & c & Hc & Hu & _).
  - decide_by_compute.
  - decide_by_compute.
  - exists p, c. split; [exact Hc | exact Hu].
Defined.

(** X3: the staging directory made for a request that joins a pull in
    flight is recorded in no chain, and the store never removes it: it is on
    disk in every later state, provided no pull's staging directory is that
    directory or one above it, as mkdtemp's fresh names ensure. *)
Theorem X3_joined_request_leaves_its_directory (env : Env) (s : StoreProcess)
  (reference : ImageReference) (p : nat) (suffix : string)
  (ms : list Msg) (rs : list Reply) (s' : StoreProcess) :
  reachable env s →
  pulling s !! stringify reference = Some p →
  mkdtemp_answer env s = Ok suffix →
  run env ms (snd (_get env reference None s)) = Some (rs, s') →
  (∀ q c, chains s' !! q = Some c →
          under (c_staging c)
            (path_join (getStagingDir (docker_store_dir env)) suffix) = false) →
  chains (snd (_get env reference None s)) = chains s
  ∧ path_join (getStagingDir (docker_store_dir env)) suffix ∈ fs s'.
Proof.
  intros Hr Hp Hm Hrun Hfree.
  pose proof (T_join env s reference suffix p Hm Hp) as T.
  assert (E : _get env reference None s
              = (Pending p,
                 log (EvMkdtemp (getStagingTempDir (docker_store_dir env))
                        (Ok (path_join (getStagingDir (docker_store_dir env)) suffix)))
                   (set_fs (fun d => {[path_join (getStagingDir (docker_store_dir env))
                                         suffix]} ∪ d) s))).
  { rewrite _get_unfold. cbv zeta. now rewrite Hm, Hp. }
  rewrite E in *. simpl snd in *. split; [reflexivity |].
  pose proof (transition_Inv env _ _ _ _ (reachable_Inv env s Hr) T) as HI1.
  destruct (decide (path_join (getStagingDir (docker_store_dir env)) suffix ∈ fs s'))
    as [|Hn]; [assumption | exfalso].
  destruct (run_gone env ms _ rs s'
              (path_join (getStagingDir (docker_store_dir env)) suffix) HI1 Hrun)
    as (q & c & Hc & Hu); [simpl; set_solver | exact Hn |].
  rewrite (Hfree q c Hc) in Hu. discriminate.
Qed.

Lemma X3_joined_request_leaves_its_directory_witness :
  "/store/staging/t3"
  ∈ fs (state_after env_ok
          ([LookupSettled busybox None; LookupSettled busybox None;
            PullSettled 0 [] (Error "connection reset"); Run_onAny 0])).
Proof.
  assert (Hr : reachable env_ok (state_after env_ok [LookupSettled busybox None])).
  { apply state_after_reachable. vm_compute. eexists. reflexivity. }
  refine (proj2 (X3_joined_request_leaves_its_directory env_ok _ busybox 0 "t3"
                   [PullSettled 0 [] (Error "connection reset"); Run_onAny 0]
                   [NoReply; NoReply]
                   (state_after env_ok
                      [LookupSettled busybox None; LookupSettled busybox None;
                       PullSettled 0 [] (Error "connection reset"); Run_onAny 0])
                   Hr _ _ _ _)).
  - vm_compute. reflexivity.
  - vm_compute. reflexivity.
  - vm_compute. reflexivity.
  - intros q c Hc.
    assert (E : chains (state_after env_ok
                          [LookupSettled busybox None; LookupSettled busybox None;
                           PullSettled 0 [] (Error "connection reset"); Run_onAny 0])
                = <[0 := {| c_name := stringify busybox; c_reference := busybox;
                            c_staging := "/store/staging/t0";
                            c_stage := Cleaned (Error "connection reset") |}]> ∅)
      by (vm_compute; reflexivity).
    rewrite E in Hc. apply lookup_insert_Some in Hc as [[_ <-]|[_ Hc]].
    + vm_compute. reflexivity.
    + rewrite lookup_empty in Hc. discriminate Hc.
Defined.

(** ** Placement, once more *)

Lemma moveLayer_on_placed env staging layerId s :
  getImageLayerPath (docker_store_dir env) layerId ∈ fs s →
  fst (moveLayer env staging layerId s) = Ready tt
  ∧ fs (snd (moveLayer env staging layerId s)) = fs s
  ∧ Forall (fun e => ∃ path b, e = EvExists path b)
      (since s (snd (moveLayer env staging layerId s))).
Proof.
  intros Ht. rewrite moveLayer_unfold. cbv zeta.
  rewrite (bool_decide_eq_true_2 _ Ht).
  destruct (bool_decide _); unfold since; simpl.
  - rewrite <- app_assoc, drop_app_length. repeat split. repeat constructor; eauto.
  - rewrite drop_app_length. repeat split. repeat constructor; eauto.
Qed.

(** X4: once the store directory of a layer is on disk, it stays, and in
    every later state [moveLayer] for that layer id, from whatever staging
    directory, succeeds after its existence tests alone: no mkdir, no
    rename, the disk as it was.  A layer directory is never overwritten. *)
Theorem X4_placed_layer_is_final (env : Env) (s : StoreProcess)
  (layerId : string) (ms : list Msg) (rs : list Reply) (s' : StoreProcess)
  (staging : string) :
  reachable env s →
  getImageLayerPath (docker_store_dir env) layerId ∈ fs s →
  run env ms s = Some (rs, s') →
  getImageLayerPath (docker_store_dir env) layerId ∈ fs s'
  ∧ fst (moveLayer env staging layerId s') = Ready tt
  ∧ fs (snd (moveLayer env staging layerId s')) = fs s'
  ∧ Forall (fun e => ∃ path b, e = EvExists path b)
      (since s' (snd (moveLayer env staging layerId s'))).
Proof.
  intros Hr Ht Hrun.
  assert (Ht' : getImageLayerPath (docker_store_dir env) layerId ∈ fs s').
  { apply (run_layers env ms s rs s' (reachable_Inv env s Hr) Hrun);
      [apply layer_path_in_layers | exact Ht]. }
  split; [exact Ht' |]. now apply moveLayer_on_placed.
Qed.

Lemma X4_placed_layer_is_final_witness :
  fst (moveLayer env_ok "/store/staging/t9" "aaa"
         (state_after env_ok
            (pull_busybox ++ [Run_put 0; PutSettled 0 (Ok busybox_image);
                              Run_onAny 0])))
  = Ready tt.
Proof.
  assert (Hr : reachable env_ok (state_after env_ok pull_busybox)).
  { apply state_after_reachable. vm_compute. eexists. reflexivity. }
  assert (Hrun : run env_ok [Run_put 0; PutSettled 0 (Ok busybox_image); Run_onAny 0]
                   (state_after env_ok pull_busybox)
                 = Some ([NoReply; NoReply; NoReply],
                         state_after env_ok
                           (pull_busybox ++ [Run_put 0; PutSettled 0 (Ok busybox_image);
                                             Run_onAny 0]))).
  { vm_compute. reflexivity. }
  refine (proj1 (proj2 (X4_placed_layer_is_final env_ok _ "aaa" _ _ _
                          "/store/staging/t9" Hr _ Hrun))).
  decide_by_compute.
Defined.

(** X5: when the rename of [moveLayer] fails after its mkdir succeeded, the
    layer is reported failed, yet the directory just made stays in the store
    while the layer is still staged; from then on [moveLayer] for that
    layer, from any staging directory, reports success without moving
    anything. *)
Theorem X5_failed_rename_masks_layer (env : Env) (staging layerId : string)
  (s : StoreProcess) (e : string) :
  let source := path_join staging layerId in
  let target := getImageLayerPath (docker_store_dir env) layerId in
  let s1 := log (EvExists target false) (log (EvExists source true) s) in
  let s2 := log (EvMkdir target None) (set_fs (fun d => {[target]} ∪ d) s1) in
  source ∈ fs s → target ∉ fs s →
  mkdir_error env target s1 = None →
  rename_error env source target s2 = Some e →
  let after := snd (moveLayer env staging layerId s) in
  fst (moveLayer env staging layerId s)
  = Failed ("Failed to move layer from '" +:+ source +:+
            "' to '" +:+ target +:+ "': " +:+ e)
  ∧ target ∈ fs after ∧ source ∈ fs after
  ∧ ∀ staging', fst (moveLayer env staging' layerId after) = Ready tt
                ∧ fs (snd (moveLayer env staging' layerId after)) = fs after.
Proof.
  intros source target s1 s2 Hs Ht Hmk Hrn after.
  assert (E : moveLayer env staging layerId s
              = (Failed ("Failed to move layer from '" +:+ source +:+
                         "' to '" +:+ target +:+ "': " +:+ e),
                 log (EvRename source target (Some e)) s2)).
  { rewrite moveLayer_unfold. cbv zeta. fold source target.
    rewrite (bool_decide_eq_true_2 _ Hs), (bool_decide_eq_false_2 _ Ht).
    fold s1. rewrite Hmk. fold s2. now rewrite Hrn. }
  subst after. rewrite E. simpl snd. simpl fst.
  split; [reflexivity |].
  assert (Hin : target ∈ fs (log (EvRename source target (Some e)) s2)).
  { simpl. apply elem_of_union. left. now apply elem_of_singleton. }
  split; [exact Hin |].
  split; [simpl; apply elem_of_union; now right |].
  intros staging'.
  destruct (moveLayer_on_placed env staging' layerId _ Hin) as (H1 & H2 & _).
  now split.
Qed.

Lemma X5_failed_rename_masks_layer_witness :
  fst (moveLayer env_busy "/store/staging/t0" "aaa"
         (snd (moveLayer env_busy "/store/staging/t0" "aaa"
                 (init {["/store/staging/t0/aaa"]}))))
  = Ready tt.
Proof.
  refine (proj1 (proj2 (proj2 (proj2
            (X5_failed_rename_masks_layer env_busy "/store/staging/t0" "aaa"
               (init {["/store/staging/t0/aaa"]}) "Device or resource busy"
               _ _ _ _))) "/store/staging/t0")).
  - decide_by_compute.
  - decide_by_compute.
  - reflexivity.
  - reflexivity.
Defined.

Lemma moveLayer_first_event env staging layerId s :
  ∃ b evs, trace (snd (moveLayer env staging layerId s))
           = trace s ++ EvExists (path_join staging layerId) b :: evs.
Proof.
  rewrite moveLayer_unfold. cbv zeta.
  repeat match goal with
         | |- context [if ?b then _ else _] => destruct b
         | |- context [match ?o with Some _ => _ | None => _ end] => destruct o
         end; simpl; rewrite <- ?app_assoc; simpl; eauto.
Qed.

Lemma foreach_moveLayer_events env staging layerIds futures s :
  ∃ evs,
    trace (snd (foreach layerIds
                  (fun layerId futures =>
                     let* f := moveLayer env staging layerId in ret (futures ++ [f]))
                  futures s)) = trace s ++ evs
    ∧ Forall (fun l => ∃ b, EvExists (path_join staging l) b ∈ evs) layerIds.
Proof.
  revert futures s. induction layerIds as [|l ls IH]; intros futures s.
  - exists []. simpl. rewrite app_nil_r. split; [reflexivity | constructor].
  - simpl. rewrite bind_snd, bind_fst, bind_snd. simpl.
    destruct (moveLayer_first_event env staging l s) as (b & evs1 & E1).
    destruct (IH (futures ++ [fst (moveLayer env staging l s)])
                 (snd (moveLayer env staging l s))) as (evs2 & E2 & Hall).
    exists ((EvExists (path_join staging l) b :: evs1) ++ evs2).
    split; [now rewrite E2, E1, <- app_assoc |].
    constructor.
    + exists b. apply elem_of_app. left. apply elem_of_cons. now left.
    + eapply Forall_impl; [exact Hall |]. intros x [b' Hb'].
      exists b'. apply elem_of_app. now right.
Qed.

Lemma foreach_moveLayer_length env staging layerIds futures s :
  length (fst (foreach layerIds
                 (fun layerId futures =>
                    let* f := moveLayer env staging layerId in ret (futures ++ [f]))
                 futures s)) = length futures + length layerIds.
Proof.
  revert futures s. induction layerIds as [|l ls IH]; intros futures s.
  - simpl. lia.
  - simpl. rewrite bind_fst, IH, bind_fst. simpl. rewrite length_app. simpl. lia.
Qed.

(** X6: [moveLayers] makes the move of every layer of its list, whether or
    not an earlier one failed: each layer's staged path is tested for
    existence during the call, and one future per layer is collected. *)
Theorem X6_moveLayers_attempts_every_layer (env : Env) (staging : string)
  (layerIds : list string) (s : StoreProcess) :
  Forall (fun l => ∃ b, EvExists (path_join staging l) b
                        ∈ since s (snd (moveLayers env staging layerIds s)))
    layerIds
  ∧ length (placements env staging layerIds s) = length layerIds.
Proof.
  destruct (foreach_moveLayer_events env staging layerIds [] s)
    as (evs & E & Hall).
  split.
  - unfold moveLayers. rewrite bind_snd. simpl snd.
    unfold since. now rewrite E, drop_app_length.
  - unfold placements. now rewrite foreach_moveLayer_length.
Qed.

(** ** Edges of the pull chain *)

(** X7: nothing in the chain of a pull rejects an empty list of layers.
    When the Puller answered with no layer, [moveLayers] succeeds without a
    single filesystem call and the chain calls [put] with the empty list;
    if the Metadata Index then answers with an image without layers, the
    deferred [__get] of a request waiting on the pull aborts the process. *)
Theorem X7_empty_pull_is_persisted (env : Env) (s : StoreProcess) (p : nat)
  (c : Chain) (image : Image) :
  chains s !! p = Some c → c_stage c = MoveQueued [] →
  layer_ids image = [] →
  ∃ s1 s2 s3,
    step env (Run_moveLayers p) s = Next NoReply s1
    ∧ fs s1 = fs s ∧ trace s1 = trace s ++ [EvMoved p (Ready [])]
    ∧ step env (Run_put p) s1 = Next NoReply s2
    ∧ trace s2 = trace s1 ++ [EvPut p (c_reference c) []]
    ∧ step env (PutSettled p (Ok image)) s2 = Next NoReply s3
    ∧ step env (Run__get (Pending p)) s3
      = Crash "CHECK_LT(0, image.layer_ids_size())".
Proof.
  intros Hc Hst Himg.
  pose proof (T_moved env s p c [] Hc Hst eq_refl) as T1.
  set (s1 := set_chains <[p := set_stage (PutQueued []) c]>
               (log (EvMoved p (Ready []))
                  (snd (moveLayers env (c_staging c) [] s)))) in *.
  assert (Hc1 : chains s1 !! p = Some (set_stage (PutQueued []) c))
    by apply lookup_insert_eq.
  pose proof (T_put env s1 p _ [] Hc1 eq_refl) as T2.
  set (s2 := set_chains <[p := set_stage AwaitPut (set_stage (PutQueued []) c)]>
               (log (EvPut p (c_reference (set_stage (PutQueued []) c)) []) s1)) in *.
  assert (Hc2 : chains s2 !! p = Some (set_stage AwaitPut (set_stage (PutQueued []) c)))
    by apply lookup_insert_eq.
  pose proof (T_put_settled env s2 p _ (Ok image) Hc2 eq_refl) as T3.
  set (s3 := set_chains
               <[p := set_stage (Settled (Ok image))
                        (set_stage AwaitPut (set_stage (PutQueued []) c))]> s2) in *.
  exists s1, s2, s3.
  split; [now apply transition_step |]. split; [reflexivity |].
  split; [reflexivity |]. split; [now apply transition_step |].
  split; [reflexivity |]. split; [now apply transition_step |].
  unfold step, settled, promise_outcome.
  replace (chains s3 !! p)
    with (Some (set_stage (Settled (Ok image))
                  (set_stage AwaitPut (set_stage (PutQueued []) c))))
    by (symmetry; apply lookup_insert_eq).
  simpl c_stage. cbv iota. unfold __get. now rewrite Himg.
Qed.

Lemma X7_empty_pull_is_persisted_witness :
  ∃ s3,
    run env_ok [Run_moveLayers 0; Run_put 0;
                PutSettled 0 (Ok {| layer_ids := [] |})]
      (state_after env_ok [LookupSettled busybox None; PullSettled 0 [] (Ok [])])
    = Some ([NoReply; NoReply; NoReply], s3)
    ∧ step env_ok (Run__get (Pending 0)) s3
      = Crash "CHECK_LT(0, image.layer_ids_size())".
Proof.
  destruct (X7_empty_pull_is_persisted env_ok
              (state_after env_ok [LookupSettled busybox None; PullSettled 0 [] (Ok [])])
              0
              {| c_name := stringify busybox; c_reference := busybox;
                 c_staging := "/store/staging/t0"; c_stage := MoveQueued [] |}
              {| layer_ids := [] |})
    as (s1 & s2 & s3 & H1 & _ & _ & H2 & _ & H3 & H4).
  - vm_compute. reflexivity.
  - reflexivity.
  - reflexivity.
  - exists s3. split; [| exact H4].
    cbn [run]. now rewrite H1, H2, H3.
Defined.

(** X8: a settled pull is joined until its cleanup has run, and pulled
    again afterwards.  Between the settling of a pull and its cleanup, a
    request for the same key gets the future of the settled promise, that
    is, the old result at once, a failure included, and no Puller is
    invoked.  After the cleanup, the next request for the key that gets its
    staging directory starts a new pull on a new promise: no result, and no
    failure, is remembered by the store. *)
Theorem X8_joined_until_cleanup_then_pulled_again (env : Env) (s : StoreProcess)
  (p : nat) (c : Chain) (r : Try Image) (reference : ImageReference)
  (suffix : string) :
  reachable env s →
  chains s !! p = Some c → c_stage c = Settled r →
  c_name c = stringify reference →
  mkdtemp_answer env s = Ok suffix →
  (fst (_get env reference None s) = Pending p
   ∧ settled (snd (_get env reference None s)) (Pending p) = Some r
   ∧ pulls_of (stringify reference) (since s (snd (_get env reference None s))) = 0)
  ∧ ∃ s1,
      step env (Run_onAny p) s = Next NoReply s1
      ∧ ∀ suffix1, mkdtemp_answer env s1 = Ok suffix1 →
          fst (_get env reference None s1) = Pending (next_promise s)
          ∧ p < next_promise s
          ∧ promise_outcome (snd (_get env reference None s1)) (next_promise s) = None
          ∧ pulls_of (stringify reference)
              (since s1 (snd (_get env reference None s1))) = 1.
Proof.
  intros Hr Hc Hst Hname Hm.
  pose proof (reachable_Inv env s Hr) as HI.
  assert (Hp : pulling s !! stringify reference = Some p).
  { rewrite <- Hname. apply (inv_chain _ _ HI _ _ Hc).
    unfold unfinished. now rewrite Hst. }
  split.
  - rewrite _get_unfold. cbv zeta. rewrite Hm, Hp. simpl.
    split; [reflexivity |]. split.
    + unfold promise_outcome. simpl. now rewrite Hc, Hst.
    + unfold since. simpl. now rewrite drop_app_length.
  - pose proof (T_cleanup env s p c r Hc Hst) as T.
    destruct (onAny_lambda_effect env (c_name c) (c_staging c) s)
      as (P & C & N & _ & _).
    eexists. split; [apply transition_step; exact T |].
    intros suffix1 Hm1. rewrite _get_unfold. cbv zeta. rewrite Hm1.
    cbn [pulling set_chains next_promise chains]. rewrite P, N, C, Hname.
    rewrite lookup_delete_eq. cbn [fst snd].
    split; [reflexivity |]. split; [eapply inv_fresh; eassumption |]. split.
    + unfold promise_outcome. cbn [chains]. now rewrite lookup_insert_eq.
    + unfold since. cbn [trace]. rewrite drop_app_length.
      unfold pulls_of. simpl. now rewrite bool_decide_eq_true_2.
Qed.

Lemma X8_joined_until_cleanup_then_pulled_again_witness :
  fst (_get env_ok busybox None
         (state_after env_ok
            [LookupSettled busybox None; PullSettled 0 [] (Error "connection reset")]))
  = Pending 0
  ∧ fst (_get env_ok busybox None
           (state_after env_ok
              [LookupSettled busybox None; PullSettled 0 [] (Error "connection reset");
               Run_onAny 0]))
    = Pending 1.
Proof.
  destruct (X8_joined_until_cleanup_then_pulled_again env_ok
              (state_after env_ok
                 [LookupSettled busybox None;
                  PullSettled 0 [] (Error "connection reset")])
              0
              {| c_name := stringify busybox; c_reference := busybox;
                 c_staging := "/store/staging/t0";
                 c_stage := Settled (Error "connection reset") |}
              (Error "connection reset") busybox "t3")
    as [(H1 & _) (s1 & Hs1 & H2)].
  - apply state_after_reachable. vm_compute. eexists. reflexivity.
  - vm_compute. reflexivity.
  - reflexivity.
  - reflexivity.
  - vm_compute. reflexivity.
  - split; [exact H1 |].
    assert (E : s1 = state_after env_ok
                  [LookupSettled busybox None;
                   PullSettled 0 [] (Error "connection reset"); Run_onAny 0]).
    { assert (E' : step env_ok (Run_onAny 0)
                     (state_after env_ok
                        [LookupSettled busybox None;
                         PullSettled 0 [] (Error "connection reset")])
                   = Next NoReply
                       (state_after env_ok
                          [LookupSettled busybox None;
                           PullSettled 0 [] (Error "connection reset"); Run_onAny 0]))
        by (vm_compute; reflexivity).
      rewrite E' in Hs1. now injection Hs1. }
    subst s1. apply (H2 "t5"). vm_compute. reflexivity.
Defined.

(** X9: the pulling table holds exactly the pulls whose cleanup has not
    run: a key maps to a promise if and only if the chain of that promise
    has this key and is not yet cleaned up.  No entry outlives its pull,
    and once every pull is cleaned up the table is empty. *)
Theorem X9_table_holds_the_unfinished_pulls (env : Env) (s : StoreProcess) :
  reachable env s →
  (∀ name p,
     pulling s !! name = Some p
     ↔ ∃ c, chains s !! p = Some c ∧ c_name c = name ∧ unfinished c = true)
  ∧ ((∀ p c, chains s !! p = Some c → unfinished c = false) → pulling s = ∅).
Proof.
  intros Hr. pose proof (reachable_Inv env s Hr) as HI. split.
  - intros name p. split.
    + apply (inv_table _ _ HI).
    + intros (c & Hc & <- & Hu). now apply (inv_chain _ _ HI).
  - intros Hall. apply map_eq. intros name. rewrite lookup_empty.
    destruct (pulling s !! name) as [p|] eqn:E; [| reflexivity].
    destruct (inv_table _ _ HI _ _ E) as (c & Hc & _ & Hu).
    rewrite (Hall _ _ Hc) in Hu. discriminate.
Qed.

Lemma X9_table_holds_the_unfinished_pulls_witness :
  pulling (state_after env_ok
             [LookupSettled busybox None;
              PullSettled 0 [] (Error "connection reset"); Run_onAny 0]) = ∅.
Proof.
  refine (proj2 (X9_table_holds_the_unfinished_pulls env_ok _ _) _).
  - apply state_after_reachable. vm_compute. eexists. reflexivity.
  - intros p c Hc.
    assert (E : chains (state_after env_ok
                          [LookupSettled busybox None;
                           PullSettled 0 [] (Error "connection reset"); Run_onAny 0])
                = <[0 := {| c_name := stringify busybox; c_reference := busybox;
                            c_staging := "/store/staging/t0";
                            c_stage := Cleaned (Error "connection reset") |}]> ∅)
      by (vm_compute; reflexivity).
    rewrite E in Hc. apply lookup_insert_Some in Hc as [[_ <-]|[_ Hc]].
    + reflexivity.
    + rewrite lookup_empty in Hc. discriminate Hc.
Defined.

(** X10: the head of [get].  An image that is not a Docker image, and a
    name that does not parse, are answered with a failure and leave the
    process exactly as it was: no collaborator is called.  Otherwise the
    one thing [get] does is to ask the Metadata Index for the parsed
    reference, passing the [cached] flag of the image on. *)
Theorem X10_get_rejects_without_effect (env : Env) (image : MesosImage)
  (s : StoreProcess) :
  (image_type image ≠ DOCKER →
     get env image s
     = (Failed "Docker provisioner store only supports Docker images", s))
  ∧ (∀ e, image_type image = DOCKER →
          parse_reference env (docker_name image) = Error e →
          get env image s
          = (Failed ("Failed to parse docker image '" +:+ docker_name image +:+
                     "': " +:+ e), s))
  ∧ (∀ reference, image_type image = DOCKER →
          parse_reference env (docker_name image) = Ok reference →
          get env image s
          = (Delegated (length (trace s)),
             log (EvLookup reference (cached image)) s))
  ∧ pulling (snd (get env image s)) = pulling s
  ∧ chains (snd (get env image s)) = chains s
  ∧ fs (snd (get env image s)) = fs s.
Proof.
  unfold get. split; [| split; [| split]].
  - intros H. destruct (image_type image); [reflexivity | congruence].
  - intros e -> ->. reflexivity.
  - intros reference -> ->. reflexivity.
  - destruct (image_type image); [now repeat split |].
    destruct (parse_reference env _); now repeat split.
Qed.

Lemma X10_get_rejects_without_effect_witness :
  get env_ok {| image_type := APPC; docker_name := "busybox"; cached := true |}
    (init ∅)
  = (Failed "Docker provisioner store only supports Docker images", init ∅).
Proof.
  apply (proj1 (X10_get_rejects_without_effect env_ok
                  {| image_type := APPC; docker_name := "busybox"; cached := true |}
                  (init ∅))).
  discriminate.
Defined.

(** ** Printed image names *)

Lemma has_colon_append (a t : string) : has_colon (a +:+ String ":" t) = true.
Proof.
  induction a as [|c a IH]; [reflexivity |].
  rewrite append_cons. cbn [has_colon]. rewrite IH. apply orb_true_r.
Qed.

Lemma colon_splits_once (a b t u : string) :
  has_colon t = false → has_colon u = false →
  a +:+ String ":" t = b +:+ String ":" u → a = b ∧ t = u.
Proof.
  intros Ht Hu. revert b.
  induction a as [|c a IH]; intros [|d b] H.
  - injection H as H. now split.
  - rewrite append_cons in H. injection H as _ H.
    rewrite H, has_colon_append in Ht. discriminate Ht.
  - rewrite append_cons in H. injection H as _ H.
    rewrite <- H, has_colon_append in Hu. discriminate Hu.
  - rewrite !append_cons in H. injection H as -> H.
    destruct (IH b H) as [-> ->]. now split.
Qed.

(** X11: [operator<<] for [ImageName] does not tell a registry from the head
    of a repository path: the name with the registry [r] and the repository
    [repo] prints like the name without registry and with the repository
    [r/repo], although the two names differ.  Among the names without a
    registry whose tags have no colon, the printed form does determine the
    name. *)
Theorem X11_ImageName_print (r repo t : string) :
  let with_registry :=
    {| provisioners.repo := repo; provisioners.tag := t;
       provisioners.registry := Some r |} in
  let without :=
    {| provisioners.repo := r +:+ "/" +:+ repo; provisioners.tag := t;
       provisioners.registry := None |} in
  with_registry ≠ without
  ∧ provisioners.print with_registry = provisioners.print without
  ∧ ∀ a b : provisioners.ImageName,
      provisioners.registry a = None → provisioners.registry b = None →
      has_colon (provisioners.tag a) = false →
      has_colon (provisioners.tag b) = false →
      provisioners.print a = provisioners.print b → a = b.
Proof.
  intros with_registry without.
  split; [discriminate |]. split.
  { unfold provisioners.print. simpl. now rewrite !append_assoc. }
  intros [ra ta ga] [rb tb gb]. unfold provisioners.print. simpl.
  intros -> -> Ha Hb H.
  destruct (colon_splits_once _ _ _ _ Ha Hb H) as [-> ->]. reflexivity.
Qed.

Lemma X11_ImageName_print_witness :
  {| provisioners.repo := "library/busybox"; provisioners.tag := "latest";
     provisioners.registry := None |}
  = {| provisioners.repo := "library/busybox"; provisioners.tag := "latest";
       provisioners.registry := None |}.
Proof.
  refine (proj2 (proj2 (X11_ImageName_print "docker.io" "library" "latest"))
            {| provisioners.repo := "library/busybox";
               provisioners.tag := "latest"; provisioners.registry := None |}
            {| provisioners.repo := "library/busybox";
               provisioners.tag := "latest"; provisioners.registry := None |}
            _ _ _ _ _).
  - reflexivity.
  - reflexivity.
  - vm_compute. reflexivity.
  - vm_compute. reflexivity.
  - vm_compute. reflexivity.
Defined.

(** ** Placing twice *)

Lemma foreach_place_each env staging layerIds futures s :
  foreach layerIds
    (fun layerId futures =>
       let* f := moveLayer env staging layerId in ret (futures ++ [f]))
    futures s
  = (futures ++ fst (place_each env staging layerIds s),
     snd (place_each env staging layerIds s)).
Proof.
  revert futures s. induction layerIds as [|l ls IH]; intros futures s; simpl.
  - now rewrite app_nil_r.
  - unfold bind at 1. unfold bind at 1.
    destruct (moveLayer env staging l s) as [f s1]. simpl. rewrite IH.
    destruct (place_each env staging ls s1) as [fs' s2]. simpl.
    now rewrite <- app_assoc.
Qed.

Lemma placements_place_each env staging layerIds s :
  placements env staging layerIds s = fst (place_each env staging layerIds s)
  ∧ snd (moveLayers env staging layerIds s) = snd (place_each env staging layerIds s).
Proof.
  unfold placements, moveLayers. rewrite bind_snd, foreach_place_each. now simpl.
Qed.

Lemma in_layers_below dir layerId rest :
  in_layers dir (getImageLayerPath dir layerId +:+ rest) = true.
Proof.
  unfold in_layers, getImageLayerPath, under. apply orb_true_iff. right.
  unfold path_join at 2. rewrite <- (append_assoc _ "/" layerId), append_assoc.
  apply prefix_append.
Qed.

(** [moveLayer] puts new paths below the layers root only. *)
Lemma moveLayer_adds env staging layerId s q :
  q ∈ fs (snd (moveLayer env staging layerId s)) →
  q ∈ fs s ∨ in_layers (docker_store_dir env) q = true.
Proof.
  rewrite moveLayer_unfold. cbv zeta.
  destruct (bool_decide _); [| now left].
  destruct (bool_decide _); [now left |].
  destruct (mkdir_error _ _ _); [now left |].
  assert (Hmk : ∀ x, x ∈ ({[getImageLayerPath (docker_store_dir env) layerId]} ∪ fs s
                          : gset string) →
                     x ∈ fs s ∨ in_layers (docker_store_dir env) x = true).
  { intros x [->%elem_of_singleton|Hx]%elem_of_union; [right | now left].
    apply layer_path_in_layers. }
  destruct (rename_error _ _ _ _); simpl; [apply Hmk |].
  unfold renamed. intros [Hq|Hq]%elem_of_union.
  - apply elem_of_filter in Hq as [_ Hq]. now apply Hmk.
  - apply elem_of_map in Hq as (x & -> & _). right. apply in_layers_below.
Qed.

Lemma moveLayer_done env staging layerId s :
  fst (moveLayer env staging layerId s) = Ready tt →
  needs_no_move env staging layerId (fs (snd (moveLayer env staging layerId s))).
Proof.
  rewrite moveLayer_unfold. cbv zeta. unfold needs_no_move.
  case_bool_decide as Hs; [| intros _; now left].
  case_bool_decide as Ht; [intros _; now right |].
  destruct (mkdir_error _ _ _); [discriminate |].
  destruct (rename_error _ _ _ _); [discriminate |].
  intros _. right. simpl. apply renamed_target. apply elem_of_union. now right.
Qed.

Lemma moveLayer_keeps_done env staging layerId l s :
  in_staging (docker_store_dir env) staging →
  needs_no_move env staging l (fs s) →
  needs_no_move env staging l (fs (snd (moveLayer env staging layerId s))).
Proof.
  intros Hst [Hs|Ht].
  - left. intros Hin. apply moveLayer_adds in Hin as [Hin|Hin]; [contradiction |].
    rewrite (staging_not_in_layers _ _ (in_staging_join _ _ l Hst)) in Hin.
    discriminate.
  - right. apply (os_layers _ _ _ (moveLayer_step env staging layerId s Hst));
      [apply layer_path_in_layers | exact Ht].
Qed.

Lemma place_each_keeps_done env staging layerIds l s :
  in_staging (docker_store_dir env) staging →
  needs_no_move env staging l (fs s) →
  needs_no_move env staging l (fs (snd (place_each env staging layerIds s))).
Proof.
  intros Hst. revert s. induction layerIds as [|x ls IH]; intros s H; simpl.
  - exact H.
  - pose proof (moveLayer_keeps_done env staging x l s Hst H) as H1.
    destruct (moveLayer env staging x s) as [f s1]. simpl in H1.
    specialize (IH s1 H1).
    now destruct (place_each env staging ls s1).
Qed.

Lemma place_each_done env staging layerIds s :
  in_staging (docker_store_dir env) staging →
  Forall (fun f => ∃ a, f = Ready a) (fst (place_each env staging layerIds s)) →
  Forall (fun l => needs_no_move env staging l
                     (fs (snd (place_each env staging layerIds s)))) layerIds.
Proof.
  intros Hst. revert s. induction layerIds as [|x ls IH]; intros s H; simpl.
  - constructor.
  - simpl in H.
    pose proof (moveLayer_done env staging x s) as Hd.
    destruct (moveLayer env staging x s) as [f s1]. simpl in Hd.
    pose proof (place_each_keeps_done env staging ls x s1 Hst) as Hk.
    specialize (IH s1).
    destruct (place_each env staging ls s1) as [fs' s2]. simpl in *.
    apply Forall_cons in H as [[[] ->] H].
    constructor; auto.
Qed.

Lemma moveLayer_noop env staging layerId s :
  needs_no_move env staging layerId (fs s) →
  fst (moveLayer env staging layerId s) = Ready tt
  ∧ fs (snd (moveLayer env staging layerId s)) = fs s.
Proof.
  rewrite moveLayer_unfold. cbv zeta. intros [Hs|Ht].
  - now rewrite (bool_decide_eq_false_2 _ Hs).
  - rewrite (bool_decide_eq_true_2 _ Ht). now destruct (bool_decide _).
Qed.

Lemma place_each_noop env staging layerIds s :
  Forall (fun l => needs_no_move env staging l (fs s)) layerIds →
  Forall (fun f => f = Ready tt) (fst (place_each env staging layerIds s))
  ∧ fs (snd (place_each env staging layerIds s)) = fs s.
Proof.
  revert s. induction layerIds as [|x ls IH]; intros s H; simpl.
  - split; [constructor | reflexivity].
  - apply Forall_cons in H as [Hx H].
    destruct (moveLayer_noop env staging x s Hx) as [E1 E2].
    destruct (moveLayer env staging x s) as [f s1]. simpl in E1, E2. subst f.
    rewrite <- E2 in H. destruct (IH s1 H) as [F1 F2].
    destruct (place_each env staging ls s1) as [fs' s2]. simpl in *.
    split; [now constructor | congruence].
Qed.

(** X12: placement is idempotent.  After [moveLayers] has succeeded for a
    staging directory of the staging root, [moveLayers] for the same
    directory and layers succeeds again and leaves the disk as it is: every
    layer is by then either no longer staged or present in the store. *)
Theorem X12_moveLayers_is_idempotent (env : Env) (staging : string)
  (layerIds : list string) (s : StoreProcess) :
  in_staging (docker_store_dir env) staging →
  fst (moveLayers env staging layerIds s) = Ready layerIds →
  let s1 := snd (moveLayers env staging layerIds s) in
  Forall (fun l => needs_no_move env staging l (fs s1)) layerIds
  ∧ fst (moveLayers env staging layerIds s1) = Ready layerIds
  ∧ fs (snd (moveLayers env staging layerIds s1)) = fs s1.
Proof.
  intros Hst Hok s1.
  destruct (placements_place_each env staging layerIds s) as [Ep Es].
  assert (Hall : Forall (fun f => ∃ a, f = Ready a)
                   (fst (place_each env staging layerIds s))).
  { rewrite <- Ep.
    destruct (moveLayers_result env staging layerIds s)
      as [_ [[_ H]|(e & E & _)]]; [exact H | congruence]. }
  assert (Hdone : Forall (fun l => needs_no_move env staging l (fs s1)) layerIds).
  { subst s1. rewrite Es. now apply place_each_done. }
  split; [exact Hdone |].
  destruct (place_each_noop env staging layerIds s1 Hdone) as [Hrdy Hfs].
  destruct (placements_place_each env staging layerIds s1) as [Ep1 Es1].
  split; [| now rewrite Es1].
  destruct (moveLayers_result env staging layerIds s1)
    as [_ [[E _]|(e & _ & Hex)]]; [exact E | exfalso].
  rewrite Ep1 in Hex. apply Exists_exists in Hex as (f & Hf & e' & ->).
  rewrite Forall_forall in Hrdy. specialize (Hrdy _ Hf). discriminate.
Qed.

Lemma X12_moveLayers_is_idempotent_witness :
  fst (moveLayers env_ok "/store/staging/t0" ["aaa"; "bbb"]
         (snd (moveLayers env_ok "/store/staging/t0" ["aaa"; "bbb"]
                 (init {["/store/staging/t0/aaa"; "/store/staging/t0/bbb"]}))))
  = Ready ["aaa"; "bbb"].
Proof.
  refine (proj1 (proj2 (X12_moveLayers_is_idempotent env_ok "/store/staging/t0"
                          ["aaa"; "bbb"]
                          (init {["/store/staging/t0/aaa"; "/store/staging/t0/bbb"]})
                          _ _))).
  - exists "t0"%string. reflexivity.
  - vm_compute. reflexivity.
Defined.

(** ** The paths handed out *)

Lemma __get_ready_layers env image s info s1 :
  __get env image s = (Returned (Ready info), s1) →
  layers info = map (getImageLayerRootfsPath (docker_store_dir env)) (layer_ids image).
Proof.
  unfold __get. destruct (negb _); [discriminate |].
  unfold bind at 1. rewrite foreach_push_back. cbn [app].
  unfold bind, os_read.
  destruct (read_answer env _ s); [| discriminate].
  destruct (parse_answer env _); [| discriminate].
  now intros [= <- _].
Qed.

(** X13: the rootfs paths [__get] hands out, one per layer id, all lie
    below the layers root, where the store never removes anything: a path
    handed out that is on disk is on disk in every later state. *)
Theorem X13_returned_paths_stay (env : Env) (s : StoreProcess) (image : Image)
  (info : ImageInfo) (s1 : StoreProcess) (ms : list Msg) (rs : list Reply)
  (s' : StoreProcess) :
  reachable env s →
  __get env image s = (Returned (Ready info), s1) →
  run env ms s1 = Some (rs, s') →
  length (layers info) = length (layer_ids image)
  ∧ Forall (fun path => in_layers (docker_store_dir env) path = true
                        ∧ (path ∈ fs s → path ∈ fs s'))
      (layers info).
Proof.
  intros Hr Hget Hrun.
  rewrite (__get_ready_layers env image s info s1 Hget).
  split; [apply length_map |].
  pose proof (__get_step env image s) as Hs. rewrite Hget in Hs. simpl in Hs.
  pose proof (Inv_os_step _ _ _ Hs (reachable_Inv env s Hr)) as HI1.
  pose proof (__get_fs env image s) as Hfs. rewrite Hget in Hfs. simpl in Hfs.
  apply Forall_forall. intros path Hin.
  apply list_elem_of_fmap in Hin as (l & -> & _).
  assert (Hl : in_layers (docker_store_dir env)
                 (getImageLayerRootfsPath (docker_store_dir env) l) = true)
    by apply in_layers_below.
  split; [exact Hl |]. intros Hp.
  apply (run_layers env ms s1 rs s' HI1 Hrun _ Hl). now rewrite Hfs.
Qed.

Lemma X13_returned_paths_stay_witness :
  Forall (fun path => in_layers "/store" path = true
                      ∧ (path ∈ fs (state_after env_ok pull_busybox) →
                         path ∈ fs (state_after env_ok
                                      (pull_busybox ++ [Run__get (Ready busybox_image);
                                                        Run_put 0]))))
    ["/store/layers/aaa/rootfs"; "/store/layers/bbb/rootfs"]%string.
Proof.
  assert (Hr : reachable env_ok (state_after env_ok pull_busybox)).
  { apply state_after_reachable. vm_compute. eexists. reflexivity. }
  assert (Hget : __get env_ok busybox_image (state_after env_ok pull_busybox)
                 = (Returned (Ready {| layers := ["/store/layers/aaa/rootfs";
                                                  "/store/layers/bbb/rootfs"];
                                       dockerManifest := {| manifest_json := "{}" |} |}),
                    state_after env_ok (pull_busybox ++ [Run__get (Ready busybox_image)])))
    by (vm_compute; reflexivity).
  assert (Hrun : run env_ok [Run_put 0]
                   (state_after env_ok (pull_busybox ++ [Run__get (Ready busybox_image)]))
                 = Some ([NoReply],
                         state_after env_ok
                           (pull_busybox ++ [Run__get (Ready busybox_image); Run_put 0])))
    by (vm_compute; reflexivity).
  exact (proj2 (X13_returned_paths_stay env_ok _ _ _ _ _ _ _ Hr Hget Hrun)).
Defined.

Lemma X1_Store_create_witness :
  getStagingDir "/store"
  ∈ fs (snd (Store_create env_ok (Ok tt) (Ok tt) (Ok tt)
               (init {["/store/staging/stale"]})))
  ∧ ("/store/staging/stale" : string)
    ∈ fs (snd (Store_create env_ok (Ok tt) (Ok tt) (Ok tt)
                 (init {["/store/staging/stale"]}))).
Proof.
  pose proof (X1_Store_create env_ok (Ok tt) (Ok tt) (Ok tt)
                (init {["/store/staging/stale"]} ).(fs)) as H.
  cbv zeta in H. destruct H as (Hok & Hsub & _).
  split.
  - apply Hok. reflexivity.
  - apply Hsub. simpl. now apply elem_of_singleton.
Defined.
